(** * go-favicon: normalisation, de-duplication, filtering and ranking of icons

    A shallow embedding of the options, filters and URL helpers of
    [favicon.go] and of the icon type, its comparator, the
    post-processing of icons and the well-known-path prober of
    [well_known.go].  Go strings are byte strings ([string]), Go [int]s
    are integers ([Z]; no arithmetic is done on them, only comparisons
    and formatting), a pointer that may be [nil] is an [option], and the
    map used for de-duplication is a [gmap] keyed by the icon's hash.
    The icons of a slice are taken to be distinct objects, as the
    extractors allocate them, so that an icon is a value here. *)

From Stdlib Require Import ZArith String Ascii List DecimalString Permutation.
From Stdlib Require Import OrderedTypeEx.
From Stdlib Require Import DecimalZ DecimalPos.
From stdpp Require Import gmap strings list fin_maps sorting.

Local Open Scope Z_scope.

(** ** Formatting: the fragments of [fmt] the package uses *)

Module fmt.

(** The verb [%d] applied to an [int]. *)
Definition d (n : Z) : string := NilZero.string_of_int (Z.to_int n).

Definition hexdigit (n : Z) : ascii :=
  if n <? 10 then ascii_of_N (Z.to_N (48 + n)) else ascii_of_N (Z.to_N (87 + n)).

(** The verb [%x] applied to a byte array: two lower-case digits per byte. *)
Fixpoint x (bs : list Z) : string :=
  match bs with
  | [] => EmptyString
  | b :: bs' => String (hexdigit (b / 16)) (String (hexdigit (b mod 16)) (x bs'))
  end.

End fmt.

(** The conversion [[]byte(s)]. *)
Fixpoint bytes (s : string) : list Z :=
  match s with
  | EmptyString => []
  | String c s' => Z.of_N (N_of_ascii c) :: bytes s'
  end.

(** ** [crypto/sha256] (FIPS 180-4), on 32-bit words held in [Z] *)

Module sha256.

Definition w32 (v : Z) : Z := v mod 4294967296.
Definition add32 (a b : Z) : Z := w32 (a + b).
Definition rotr (n v : Z) : Z := Z.lor (Z.shiftr v n) (w32 (Z.shiftl v (32 - n))).
Definition not32 (v : Z) : Z := Z.lxor v 4294967295.

Definition Ch (e f g : Z) : Z := Z.lxor (Z.land e f) (Z.land (not32 e) g).
Definition Maj (a b c : Z) : Z :=
  Z.lxor (Z.lxor (Z.land a b) (Z.land a c)) (Z.land b c).
Definition bsig0 (v : Z) : Z := Z.lxor (Z.lxor (rotr 2 v) (rotr 13 v)) (rotr 22 v).
Definition bsig1 (v : Z) : Z := Z.lxor (Z.lxor (rotr 6 v) (rotr 11 v)) (rotr 25 v).
Definition ssig0 (v : Z) : Z := Z.lxor (Z.lxor (rotr 7 v) (rotr 18 v)) (Z.shiftr v 3).
Definition ssig1 (v : Z) : Z := Z.lxor (Z.lxor (rotr 17 v) (rotr 19 v)) (Z.shiftr v 10).

(** The round constants and the initial state are the first 32 bits of
    the fractional parts of the cube roots and of the square roots of
    the first primes.  [cbrt n] is the integer cube root, found bit by
    bit from bit [b - 1] down. *)
Definition primes : list Z :=
  [ 2; 3; 5; 7; 11; 13; 17; 19; 23; 29; 31; 37; 41; 43; 47; 53; 59; 61; 67; 71;
    73; 79; 83; 89; 97; 101; 103; 107; 109; 113; 127; 131; 137; 139; 149; 151;
    157; 163; 167; 173; 179; 181; 191; 193; 197; 199; 211; 223; 227; 229; 233;
    239; 241; 251; 257; 263; 269; 271; 277; 281; 283; 293; 307; 311 ].

Fixpoint cbrt_bits (b : nat) (n r : Z) : Z :=
  match b with
  | O => r
  | S b' =>
      let c := r + 2 ^ Z.of_nat b' in
      cbrt_bits b' n (if c * c * c <=? n then c else r)
  end.

Definition cbrt (n : Z) : Z := cbrt_bits 40 n 0.

Definition K : list Z :=
  Eval vm_compute in List.map (fun q => w32 (cbrt (q * 2 ^ 96))) primes.

Definition init : list Z :=
  Eval vm_compute in
    List.map (fun q => w32 (Z.sqrt (q * 2 ^ 64))) (List.firstn 8 primes).

(** Big-endian encoding of [v] on [n] bytes, and decoding of 4 bytes. *)
Fixpoint be_bytes (n : nat) (v : Z) : list Z :=
  match n with
  | O => []
  | S n' => (Z.shiftr v (8 * Z.of_nat n')) mod 256 :: be_bytes n' v
  end.

Fixpoint be_words (fuel : nat) (bs : list Z) : list Z :=
  match fuel, bs with
  | S fuel', b0 :: b1 :: b2 :: b3 :: rest =>
      (((b0 * 256 + b1) * 256 + b2) * 256 + b3) :: be_words fuel' rest
  | _, _ => []
  end.

(** Padding: the byte 0x80, zeroes up to 56 modulo 64, the bit length on
    8 bytes. *)
Definition pad (msg : list Z) : list Z :=
  let len := Z.of_nat (List.length msg) in
  let zeros := Z.to_nat ((55 - len) mod 64) in
  msg ++ [128] ++ List.repeat 0 zeros ++ be_bytes 8 (8 * len).

(** Message schedule: [w] holds W_0 .. W_(t-1), [n] words are appended. *)
Fixpoint schedule (n : nat) (w : list Z) : list Z :=
  match n with
  | O => w
  | S n' =>
      let t := List.length w in
      let at_ (k : nat) := List.nth (t - k) w 0 in
      schedule n'
        (w ++ [add32 (add32 (ssig1 (at_ 2%nat)) (at_ 7%nat))
                     (add32 (ssig0 (at_ 15%nat)) (at_ 16%nat))])
  end.

Definition round (st : list Z) (kw : Z * Z) : list Z :=
  match st with
  | [a; b; c; d; e; f; g; h] =>
      let t1 := add32 (add32 (add32 h (bsig1 e)) (add32 (Ch e f g) (fst kw))) (snd kw) in
      let t2 := add32 (bsig0 a) (Maj a b c) in
      [add32 t1 t2; a; b; c; add32 d t1; e; f; g]
  | _ => st
  end.

Fixpoint zip (l1 l2 : list Z) : list (Z * Z) :=
  match l1, l2 with
  | a :: l1', b :: l2' => (a, b) :: zip l1' l2'
  | _, _ => []
  end.

Fixpoint add_state (s1 s2 : list Z) : list Z :=
  match s1, s2 with
  | a :: s1', b :: s2' => add32 a b :: add_state s1' s2'
  | _, _ => []
  end.

Definition block (st : list Z) (blk : list Z) : list Z :=
  let w := schedule 48 (be_words 16 blk) in
  add_state st (List.fold_left round (zip K w) st).

Fixpoint blocks (fuel : nat) (st : list Z) (bs : list Z) : list Z :=
  match fuel with
  | O => st
  | S fuel' =>
      match bs with
      | [] => st
      | _ => blocks fuel' (block st (List.firstn 64 bs)) (List.skipn 64 bs)
      end
  end.

(** [sha256.Sum256]: the 32 bytes of the digest. *)
Definition Sum256 (msg : list Z) : list Z :=
  let p := pad msg in
  List.flat_map (be_bytes 4) (blocks (List.length p) init p).

End sha256.

(** ** The libraries and helpers the package calls

    [net/url], [mime] (whose table is read from the host system), the
    network behind the default HTTP transport, and the package's own
    [fileExt] and [extractSizeFromURL], which live in a file that is not
    part of this development, are taken as an interface.  An error
    result is [None]. *)

Module urls.

(** The fields of [url.URL] the package reads. *)
Record URL := {
  Scheme : string;
  Host : string;
  Path : string;
  RawQuery : string;
  Fragment : string
}.

End urls.

(** What a GET of a URL is answered, given the requests served so far;
    [None] is a transport error. *)
Record Response := { StatusCode : Z; Status : string; Body : string }.
Definition Transport := list string -> string -> option Response.

Class Externals := {
  http_DefaultTransport : Transport;
  urls_Parse : string -> option urls.URL;
  urls_ResolveReference : urls.URL -> urls.URL -> urls.URL;
  urls_String : urls.URL -> string;
  mime_TypeByExtension : string -> string;
  fileExt : string -> string;
  extractSizeFromURL : string -> option (Z * Z)
}.

Module filepath.

(** [filepath.Ext] with '/' as the path separator: the suffix that
    starts at the last dot of the last element of the path.  [acc] is
    the candidate found so far while scanning from the left. *)
Fixpoint ext_from (path : string) (acc : string) : string :=
  match path with
  | EmptyString => acc
  | String c rest =>
      if Ascii.eqb c "/" then ext_from rest EmptyString
      else if Ascii.eqb c "." then ext_from rest path
      else ext_from rest acc
  end.

Definition Ext (path : string) : string := ext_from path EmptyString.

End filepath.

(** ** Icons: the second half of [well_known.go] *)

Record Icon := {
  URL : string;
  MimeType : string;
  FileExt : string;
  Width : Z;
  Height : Z;
  Hash : string
}.

#[global] Instance Icon_eq_dec : EqDecision Icon.
Proof. solve_decision. Defined.

Definition with_URL (i : Icon) (v : string) : Icon :=
  {| URL := v; MimeType := MimeType i; FileExt := FileExt i;
     Width := Width i; Height := Height i; Hash := Hash i |}.
Definition with_MimeType (i : Icon) (v : string) : Icon :=
  {| URL := URL i; MimeType := v; FileExt := FileExt i;
     Width := Width i; Height := Height i; Hash := Hash i |}.
Definition with_FileExt (i : Icon) (v : string) : Icon :=
  {| URL := URL i; MimeType := MimeType i; FileExt := v;
     Width := Width i; Height := Height i; Hash := Hash i |}.
Definition with_size (i : Icon) (w h : Z) : Icon :=
  {| URL := URL i; MimeType := MimeType i; FileExt := FileExt i;
     Width := w; Height := h; Hash := Hash i |}.
Definition with_Hash (i : Icon) (v : string) : Icon :=
  {| URL := URL i; MimeType := MimeType i; FileExt := FileExt i;
     Width := Width i; Height := Height i; Hash := v |}.

(** [&Icon{URL: u}]: every other field has its zero value. *)
Definition Icon_of_URL (u : string) : Icon :=
  {| URL := u; MimeType := ""; FileExt := ""; Width := 0; Height := 0; Hash := "" |}.

Definition IsSquare (i : Icon) : bool := Width i =? Height i.

Definition formatRank (mimeType : string) : Z :=
  if String.eqb mimeType "image/png" then 10
  else if String.eqb mimeType "image/jpeg" then 9
  else if String.eqb mimeType "image/svg" then 8
  else if String.eqb mimeType "image/x-icon" then 7
  else if String.eqb mimeType "image/vnd.microsoft.icon" then 7
  else 0.

(** [ByWidth.Less], on the two elements [a = v[i]] and [b = v[j]].  Both
    [fa] and [fb] are computed from [a.MimeType], as in the source. *)
Definition Less (a b : Icon) : bool :=
  if negb (Width a =? Width b) then Width a >? Width b
  else
    let fa := formatRank (MimeType a) in
    let fb := formatRank (MimeType a) in
    if negb (fa =? fb) then fa >? fb
    else String.ltb (URL a) (URL b).

(** The order section 4.7 of the specification describes, each side
    ranked by its own MIME type; it is compared with [Less] below. *)
Definition Less_by_spec (a b : Icon) : bool :=
  if negb (Width a =? Width b) then Width a >? Width b
  else
    let fa := formatRank (MimeType a) in
    let fb := formatRank (MimeType b) in
    if negb (fa =? fb) then fa >? fb
    else String.ltb (URL a) (URL b).

(** [iconHash]. *)
Definition iconHash (i : Icon) : string :=
  let s := (URL i +:+ "-" +:+ fmt.d (Width i) +:+ "x" +:+ fmt.d (Height i))%string in
  fmt.x (sha256.Sum256 (bytes s)).

(** ** [sort.Sort] on a [ByWidth]

    The standard library sorts a slice of at most 12 elements by
    insertion: element [i] is swapped towards the front while [Less]
    holds between it and its left neighbour.  [bubble] works on the
    sorted prefix held in reverse.  Longer slices go through an unstable
    quicksort, which this model does not follow: the general statements
    below use of the result only that it is a permutation of the input
    in which no element is [Less] than its predecessor, and the concrete
    runs sort fewer than 12 icons. *)
Module sort.

Fixpoint bubble (x : Icon) (rpre : list Icon) : list Icon :=
  match rpre with
  | [] => [x]
  | y :: r => if Less x y then y :: bubble x r else x :: rpre
  end.

Definition insertionSort (data : list Icon) : list Icon :=
  reverse (List.fold_left (fun rpre x => bubble x rpre) data []).

Definition Sort (data : list Icon) : list Icon := insertionSort data.

End sort.

(** ** [favicon.go]: filters, options and the Finder *)

Definition Filter := Icon -> option Icon.

(** An [*http.Client]: the zero client [&http.Client{}] that [New]
    installs, or a client of the caller's, given by its answers. *)
Inductive Client : Type :=
| zeroClient
| customClient (answers : Transport).

(** A [Logger] turns a formatted message into a change of the log. *)
Definition Logger := string -> list string -> list string.
Definition nullLogger : Logger := fun _ sink => sink.

Record Finder := {
  ignoreManifest : bool;
  ignoreWellKnown : bool;
  log : Logger;
  client : Client;
  filters : list Filter
}.

Definition Option := Finder -> Finder.

Definition WithLogger (logger : Logger) : Option := fun f =>
  {| ignoreManifest := ignoreManifest f; ignoreWellKnown := ignoreWellKnown f;
     log := logger; client := client f; filters := filters f |}.

Definition WithClient (c : Client) : Option := fun f =>
  {| ignoreManifest := ignoreManifest f; ignoreWellKnown := ignoreWellKnown f;
     log := log f; client := c; filters := filters f |}.

Definition WithFilter (filter : list Filter) : Option := fun f =>
  {| ignoreManifest := ignoreManifest f; ignoreWellKnown := ignoreWellKnown f;
     log := log f; client := client f; filters := filters f ++ filter |}.

Fixpoint mimeTypeIn (mimeType : list string) (i : Icon) : option Icon :=
  match mimeType with
  | [] => None
  | s :: rest => if String.eqb (MimeType i) s then Some i else mimeTypeIn rest i
  end.

Definition OnlyMimeType (mimeType : list string) : Option :=
  WithFilter [mimeTypeIn mimeType].

Definition minWidthFilter (width : Z) : Filter := fun icon =>
  if Width icon <? width then None else Some icon.
Definition MinWidth (width : Z) : Option := WithFilter [minWidthFilter width].

Definition maxWidthFilter (width : Z) : Filter := fun icon =>
  if Width icon >? width then None else Some icon.
Definition MaxWidth (width : Z) : Option := WithFilter [maxWidthFilter width].

Definition minHeightFilter (height : Z) : Filter := fun icon =>
  if Height icon <? height then None else Some icon.
Definition MinHeight (height : Z) : Option := WithFilter [minHeightFilter height].

Definition maxHeightFilter (height : Z) : Filter := fun icon =>
  if Height icon >? height then None else Some icon.
Definition MaxHeight (height : Z) : Option := WithFilter [maxHeightFilter height].

Definition IgnoreWellKnown : Option := fun f =>
  {| ignoreManifest := ignoreManifest f; ignoreWellKnown := true;
     log := log f; client := client f; filters := filters f |}.

Definition IgnoreManifest : Option := fun f =>
  {| ignoreManifest := true; ignoreWellKnown := ignoreWellKnown f;
     log := log f; client := client f; filters := filters f |}.

Definition noSizeFilter : Filter := fun icon =>
  if (Width icon =? 0) || (Height icon =? 0) then None else Some icon.
Definition IgnoreNoSize : Option := WithFilter [noSizeFilter].

Definition OnlyPNG : Option := OnlyMimeType ["image/png"%string].

Definition icoFilter : Filter := fun icon =>
  if String.eqb (MimeType icon) "image/x-icon"
     || String.eqb (MimeType icon) "image/vnd.microsoft.icon"
  then Some icon else None.
Definition OnlyICO : Option := WithFilter [icoFilter].

Definition squareFilter : Filter := fun icon =>
  if negb (IsSquare icon) then None else Some icon.
Definition OnlySquare : Option := WithFilter [squareFilter].

(** [New]. *)
Definition New (option : list Option) : Finder :=
  List.fold_left (fun f fn => fn f) option
    {| ignoreManifest := false; ignoreWellKnown := false;
       log := nullLogger; client := zeroClient; filters := [] |}.

Record parser := {
  baseURL : option urls.URL;
  charset : string;
  find : Finder
}.

Definition newParser (f : Finder) : parser :=
  {| baseURL := None; charset := ""; find := f |}.

(** ** The parser's helpers and the post-processing of icons *)

(** The test [ptr == nil]. *)
Definition is_nil {A} (ptr : option A) : bool :=
  match ptr with None => true | Some _ => false end.

Section Parser.

Context {E : Externals}.

(** [parser.absURL].  The last two branches repeat the source: the
    test on [baseURL] after the parse cannot fail. *)
Definition absURL (p : parser) (url : string) : string :=
  if String.eqb url "" || is_nil (baseURL p) then url
  else
    match urls_Parse url with
    | None => ""%string
    | Some u =>
        match baseURL p with
        | Some base => urls_String (urls_ResolveReference base u)
        | None => url
        end
    end.

(** [mimeTypeURL]. *)
Definition mimeTypeURL (url : string) : string :=
  match urls_Parse url with
  | None => ""%string
  | Some u => mime_TypeByExtension (filepath.Ext (urls.Path u))
  end.

(** The start of the body of the first loop of [postProcessIcons]:
    the URL is resolved, a missing MIME type is inferred from it. *)
Definition resolve (p : parser) (icon : Icon) : Icon :=
  let icon := with_URL icon (absURL p (URL icon)) in
  if String.eqb (MimeType icon) "" then with_MimeType icon (mimeTypeURL (URL icon))
  else icon.

(** The whole body of the first loop on one icon, up to the hash;
    [None] is the [continue] that drops the icon. *)
Definition normalize (p : parser) (icon : Icon) : option Icon :=
  let icon := resolve p icon in
  if String.eqb (URL icon) "" || String.eqb (MimeType icon) "" then None
  else
    let icon :=
      if String.eqb (FileExt icon) "" then with_FileExt icon (fileExt (URL icon))
      else icon in
    let icon :=
      if Width icon =? 0 then
        match extractSizeFromURL (URL icon) with
        | Some (w, h) => with_size icon w h
        | None => icon
        end
      else icon in
    Some (with_Hash icon (iconHash icon)).

(** One step of the first loop: [tidied[icon.Hash] = icon]. *)
Definition tidy_step (p : parser) (tidied : gmap string Icon) (icon : Icon)
  : gmap string Icon :=
  match normalize p icon with
  | None => tidied
  | Some i => <[Hash i := i]> tidied
  end.

(** The map [tidied] when the first loop ends. *)
Definition tidy (p : parser) (icons : list Icon) : gmap string Icon :=
  List.fold_left (tidy_step p) icons ∅.

End Parser.

(** The inner loop over the filters: the first [nil] ends it. *)
Fixpoint applyFilters (fs : list Filter) (icon : Icon) : option Icon :=
  match fs with
  | [] => Some icon
  | fn :: fs' =>
      match fn icon with
      | None => None
      | Some icon' => applyFilters fs' icon'
      end
  end.

(** The second loop, over the icons in the order [order]. *)
Fixpoint filterIcons (fs : list Filter) (order : list Icon) : list Icon :=
  match order with
  | [] => []
  | icon :: rest =>
      match applyFilters fs icon with
      | None => filterIcons fs rest
      | Some icon' => icon' :: filterIcons fs rest
      end
  end.

(** [range] over a Go map visits every entry once, in an order the
    language leaves unspecified (the runtime randomises it). *)
Definition rangeOrder (m : gmap string Icon) (order : list Icon) : Prop :=
  order ≡ₚ (map_to_list m).*2.

(** The second loop and the sort, for a visiting order of [tidied]. *)
Definition filterAndSort (p : parser) (order : list Icon) : list Icon :=
  sort.Sort (filterIcons (filters (find p)) order).

(** [parser.postProcessIcons]: [out] is a possible result on [icons]. *)
Definition postProcessIcons {E : Externals} (p : parser) (icons out : list Icon) : Prop :=
  exists order, rangeOrder (tidy p icons) order /\ out = filterAndSort p order.

(** One run of [postProcessIcons], visiting [tidied] in key order. *)
Definition postProcessIcons_run {E : Externals} (p : parser) (icons : list Icon) : list Icon :=
  filterAndSort p (map_to_list (tidy p icons)).*2.

(** ** Fetching: the state of the network and of the log *)

Record World := {
  requests : list string;
  logged : list string
}.

Definition M (A : Type) : Type := World -> A * World.
Definition ret {A} (a : A) : M A := fun w => (a, w).
Definition bind {A B} (m : M A) (k : A -> M B) : M B :=
  fun w => let (a, w') := m w in k a w'.

Notation "'let*' x := m 'in' k" := (bind m (fun x => k))
  (at level 10, x name, m at level 100, k at level 200).

(** What a client answers. *)
Definition answers {E : Externals} (c : Client) : Transport :=
  match c with
  | zeroClient => http_DefaultTransport
  | customClient t => t
  end.

(** [f.client.Do(req)]: the request is recorded, the answer depends on
    the requests served before. *)
Definition client_Do {E : Externals} (f : Finder) (url : string)
  : M (option Response) := fun w =>
  (answers (client f) (requests w) url,
   {| requests := requests w ++ [url]; logged := logged w |}).

(** [f.log.Printf] on an already formatted message. *)
Definition log_Printf (f : Finder) (msg : string) : M unit := fun w =>
  (tt, {| requests := requests w; logged := log f msg (logged w) |}).

Inductive result (A : Type) : Type :=
| Ok (a : A)
| Err (msg : string).
Arguments Ok {A} a.
Arguments Err {A} msg.

Definition is_Ok {A} (r : result A) : bool :=
  match r with Ok _ => true | Err _ => false end.

Section Fetch.

Context {E : Externals}.

(** [Finder.fetchURL].  [http.NewRequestWithContext] fails when the
    URL does not parse. *)
Definition fetchURL (f : Finder) (url : string) : M (result string) :=
  match urls_Parse url with
  | None => ret (Err "request URL")
  | Some _ =>
      let* r := client_Do f url in
      match r with
      | None => ret (Err "retrieve URL")
      | Some resp =>
          let* _ := log_Printf f ("[" +:+ fmt.d (StatusCode resp) +:+ "] " +:+ url) in
          if StatusCode resp >? 299
          then ret (Err ("[" +:+ fmt.d (StatusCode resp) +:+ "] " +:+ Status resp))
          else ret (Ok (Body resp))
      end
  end.

(** [iconNames]. *)
Definition iconNames : list string :=
  ["favicon.ico"%string; "apple-touch-icon.png"%string].

(** The loop of [findWellKnownIcons] over the names still to probe. *)
Fixpoint probe (f : Finder) (root : string) (names : list string)
  (icons : list Icon) : M (list Icon) :=
  match names with
  | [] => ret icons
  | name :: rest =>
      let u := root +:+ name in
      let* r := fetchURL f u in
      match r with
      | Err _ => probe f root rest icons
      | Ok _ =>
          let* _ := log_Printf f ("(well-known) " +:+ u) in
          probe f root rest (icons ++ [Icon_of_URL u])
      end
  end.

(** [parser.findWellKnownIcons]. *)
Definition findWellKnownIcons (p : parser) : M (list Icon) :=
  match baseURL p with
  | None => ret []
  | Some base =>
      let root := urls.Scheme base +:+ "://" +:+ urls.Host base +:+ "/" in
      probe (find p) root iconNames []
  end.

End Fetch.

(** ** An executable instance of the interface

    A fragment of [net/url]: references made of a lower-case scheme, a
    host, a path, a query and a fragment, without user information,
    escapes, opaque parts or dot segments; a table of MIME types; and
    the two helpers of the package as the specification describes them.
    It serves to run the definitions above on concrete inputs. *)

Module Sample.

Definition is_ctl (c : ascii) : bool :=
  let n := N_of_ascii c in ((n <? 32) || (n =? 127))%N.

Fixpoint has_ctl (s : string) : bool :=
  match s with
  | EmptyString => false
  | String c r => is_ctl c || has_ctl r
  end.

Definition is_alpha (c : ascii) : bool :=
  let n := N_of_ascii c in
  (((65 <=? n) && (n <=? 90)) || ((97 <=? n) && (n <=? 122)))%N.

Definition is_digit (c : ascii) : bool :=
  let n := N_of_ascii c in ((48 <=? n) && (n <=? 57))%N.

Definition is_scheme_char (c : ascii) : bool :=
  is_alpha c || is_digit c || Ascii.eqb c "+" || Ascii.eqb c "-" || Ascii.eqb c ".".

(** [split_at c s]: the part of [s] before the first [c], and the part
    after it when there is one. *)
Fixpoint split_at (c : ascii) (s : string) : string * option string :=
  match s with
  | EmptyString => (EmptyString, None)
  | String a r =>
      if Ascii.eqb a c then (EmptyString, Some r)
      else let (pre, post) := split_at c r in (String a pre, post)
  end.

Fixpoint all_scheme_chars (s : string) : bool :=
  match s with
  | EmptyString => true
  | String a r => is_scheme_char a && all_scheme_chars r
  end.

Definition starts_with_slash (s : string) : bool :=
  match s with String "/" _ => true | _ => false end.

(** [getScheme]: [None] is the error "missing protocol scheme". *)
Definition getScheme (s : string) : option (string * string) :=
  match split_at ":" s with
  | (_, None) => Some (EmptyString, s)
  | (EmptyString, Some _) => None
  | (String a pre, Some rest) =>
      if is_alpha a && all_scheme_chars pre then Some (String a pre, rest)
      else Some (EmptyString, s)
  end.

Definition Parse (rawURL : string) : option urls.URL :=
  if has_ctl rawURL then None
  else
    let (u, frag) := split_at "#" rawURL in
    match getScheme u with
    | None => None
    | Some (scheme, rest) =>
        let (rest, query) := split_at "?" rest in
        let colon_first :=
          match split_at ":" (fst (split_at "/" rest)) with
          | (_, Some _) => true
          | _ => false
          end in
        if negb (starts_with_slash rest) && String.eqb scheme "" && colon_first
        then None
        else
          let (host, path) :=
            match rest with
            | String "/" (String "/" r) =>
                if String.eqb scheme "" && starts_with_slash r
                then (EmptyString, rest)
                else
                  match split_at "/" r with
                  | (h, None) => (h, EmptyString)
                  | (h, Some p) => (h, String "/" p)
                  end
            | _ => (EmptyString, rest)
            end in
          Some {| urls.Scheme := scheme; urls.Host := host; urls.Path := path;
                  urls.RawQuery := default EmptyString query;
                  urls.Fragment := default EmptyString frag |}
    end.

(** The directory part of a path, up to and including its last '/'. *)
Fixpoint dir_of (path : string) : string :=
  match path with
  | EmptyString => EmptyString
  | String a r =>
      match split_at "/" path with
      | (_, None) => EmptyString
      | _ => String a (dir_of r)
      end
  end.

Definition resolvePath (base ref : string) : string :=
  let full :=
    if String.eqb ref "" then base
    else if starts_with_slash ref then ref
    else dir_of base +:+ ref in
  if String.eqb full "" then EmptyString
  else if starts_with_slash full then full else String "/" full.

Definition ResolveReference (u ref : urls.URL) : urls.URL :=
  let scheme := if String.eqb (urls.Scheme ref) "" then urls.Scheme u else urls.Scheme ref in
  if negb (String.eqb (urls.Scheme ref) "") || negb (String.eqb (urls.Host ref) "") then
    {| urls.Scheme := scheme; urls.Host := urls.Host ref;
       urls.Path := resolvePath (urls.Path ref) "";
       urls.RawQuery := urls.RawQuery ref; urls.Fragment := urls.Fragment ref |}
  else
    let inherit := String.eqb (urls.Path ref) "" && String.eqb (urls.RawQuery ref) "" in
    {| urls.Scheme := scheme; urls.Host := urls.Host u;
       urls.Path := resolvePath (urls.Path u) (urls.Path ref);
       urls.RawQuery := if inherit then urls.RawQuery u else urls.RawQuery ref;
       urls.Fragment :=
         if inherit && String.eqb (urls.Fragment ref) "" then urls.Fragment u
         else urls.Fragment ref |}.

Definition URL_String (u : urls.URL) : string :=
  let nonempty (s : string) := negb (String.eqb s "") in
  (if nonempty (urls.Scheme u) then urls.Scheme u +:+ ":" else "") +:+
  (if (nonempty (urls.Scheme u) || nonempty (urls.Host u))
      && (nonempty (urls.Host u) || nonempty (urls.Path u))
   then "//" +:+ urls.Host u else "") +:+
  (if nonempty (urls.Path u) && negb (starts_with_slash (urls.Path u))
      && nonempty (urls.Host u)
   then "/" else "") +:+
  urls.Path u +:+
  (if nonempty (urls.RawQuery u) then "?" +:+ urls.RawQuery u else "") +:+
  (if nonempty (urls.Fragment u) then "#" +:+ urls.Fragment u else "").

Definition TypeByExtension (ext : string) : string :=
  if String.eqb ext ".png" then "image/png"
  else if String.eqb ext ".jpg" then "image/jpeg"
  else if String.eqb ext ".jpeg" then "image/jpeg"
  else if String.eqb ext ".gif" then "image/gif"
  else if String.eqb ext ".svg" then "image/svg+xml"
  else if String.eqb ext ".webp" then "image/webp"
  else if String.eqb ext ".ico" then "image/x-icon"
  else "".

(** Modelled from the spec: [fileExt], which is not in the files at
    hand; "derived from the resolved URL's path component (e.g.
    .png)". *)
Definition pathExt (url : string) : string :=
  match Parse url with
  | None => EmptyString
  | Some u => filepath.Ext (urls.Path u)
  end.

(** The longest prefix of decimal digits, as a number, and what
    follows it. *)
Fixpoint digits (s : string) (acc : option Z) : option Z * string :=
  match s with
  | EmptyString => (acc, s)
  | String c r =>
      if is_digit c
      then digits r (Some (10 * default 0 acc + (Z.of_N (N_of_ascii c) - 48)))
      else (acc, s)
  end.

(** Modelled from the spec: [extractSizeFromURL], which is not in the
    files at hand; "scan the URL string for the first occurrence of a
    NxM ... size token; if found, set both fields from it". *)
Fixpoint sizeToken (url : string) : option (Z * Z) :=
  match url with
  | EmptyString => None
  | String _ r =>
      match digits url None with
      | (Some w, String "x" rest) =>
          match digits rest None with
          | (Some h, _) => Some (w, h)
          | _ => sizeToken r
          end
      | _ => sizeToken r
      end
  end.

(** No network behind the default transport. *)
Definition env : Externals := {|
  http_DefaultTransport := fun _ _ => None;
  urls_Parse := Parse;
  urls_ResolveReference := ResolveReference;
  urls_String := URL_String;
  mime_TypeByExtension := TypeByExtension;
  fileExt := pathExt;
  extractSizeFromURL := sizeToken
|}.

(** A client that serves [/favicon.ico] of one host and answers 404
    to everything else there, and a logger that records. *)
Definition oneIconServer : Transport := fun _ url =>
  if String.eqb url "https://a.com/favicon.ico"
  then Some {| StatusCode := 200; Status := "200 OK"; Body := "ico" |}
  else if String.eqb url "https://a.com/apple-touch-icon.png"
  then Some {| StatusCode := 404; Status := "404 Not Found"; Body := "" |}
  else None.

Definition oneIconClient : Client := customClient oneIconServer.

Definition recorder : Logger := fun msg sink => sink ++ [msg].

Definition world0 : World := {| requests := []; logged := [] |}.

End Sample.

(** ** Concrete finders and icons used below *)

Module Cases.

Definition icon (url mime : string) (w h : Z) : Icon :=
  {| URL := url; MimeType := mime; FileExt := Sample.pathExt url;
     Width := w; Height := h; Hash := "" |}.

(** Same width, different formats. *)
Definition ico32 : Icon := icon "https://a.com/a.ico" "image/x-icon" 32 32.
Definition png32 : Icon := icon "https://a.com/b.png" "image/png" 32 32.

(** Same URL and width, different heights. *)
Definition strip16 : Icon := icon "https://a.com/i.png" "image/png" 16 16.
Definition strip32 : Icon := icon "https://a.com/i.png" "image/png" 16 32.

Definition mixed : list Icon := [ico32; png32; strip16].

(** Icons of several widths around the bounds 100 and 200. *)
Definition sized : list Icon :=
  [ icon "https://a.com/99.png" "image/png" 99 99;
    icon "https://a.com/100.png" "image/png" 100 100;
    icon "https://a.com/150.png" "image/png" 150 150;
    icon "https://a.com/200.png" "image/png" 200 200;
    icon "https://a.com/201.png" "image/png" 201 201 ].

(** Same URL and size, declared with different MIME types. *)
Definition first16 : Icon := icon "https://a.com/i.png" "image/png" 16 16.
Definition second16 : Icon := icon "https://a.com/i.png" "image/x-png" 16 16.

Definition base : urls.URL :=
  {| urls.Scheme := "https"; urls.Host := "a.com"; urls.Path := "";
     urls.RawQuery := ""; urls.Fragment := "" |}.

(** A parser without base URL and one with, for a list of options. *)
Definition bare (option : list Option) : parser := newParser (New option).
Definition based (option : list Option) : parser :=
  {| baseURL := Some base; charset := ""; find := New option |}.

(** A filter that rewrites: it erases the MIME type. *)
Definition eraseMime : Filter := fun i => Some (with_MimeType i "").

(** Candidates as an extractor makes them, and the one that survives. *)
Definition raw : list Icon :=
  [Icon_of_URL "/a-16x16.png"; Icon_of_URL "/unknown"; Icon_of_URL ""].
Definition a16h : Icon :=
  {| URL := "https://a.com/a-16x16.png"; MimeType := "image/png"; FileExt := ".png";
     Width := 16; Height := 16;
     Hash := "e87dd1b9ac84b18ed9bb63589330de3a9b184d9b4286175550edcf367a7f3f3c" |}.

(** The icons above as the first loop leaves them, hash included. *)
Definition hashed (i : Icon) : Icon := with_Hash i (iconHash i).
Definition strip16h : Icon := Eval vm_compute in hashed strip16.
Definition strip32h : Icon := Eval vm_compute in hashed strip32.
Definition first16h : Icon := Eval vm_compute in hashed first16.
Definition second16h : Icon := Eval vm_compute in hashed second16.

End Cases.

(** ** Vocabulary of the statements below *)

(** [notAfter a b]: the sort may leave [a] before [b]. *)
Definition notAfter (a b : Icon) : Prop := Less b a = false.

(** A filter that accepts or rejects, and never rewrites. *)
Definition selective (fn : Filter) : Prop :=
  forall i i', fn i = Some i' -> i' = i.

(** The icon the map holds under the key [h] once [icons] have been
    read: the last one, in input order, that survives normalisation with
    that hash.  The scan goes from the end of the list. *)
Fixpoint lastWithHash {E : Externals} (p : parser) (h : string) (icons : list Icon)
  : option Icon :=
  match icons with
  | [] => None
  | icon :: rest =>
      match lastWithHash p h rest with
      | Some c => Some c
      | None =>
          match normalize p icon with
          | Some i => if String.eqb (Hash i) h then Some i else None
          | None => None
          end
      end
  end.

(** The number of icons of [out] whose hash is [h]. *)
Definition countHash (h : string) (out : list Icon) : nat :=
  List.length (filter (fun i => Hash i = h) out).

(** The string [iconHash] digests. *)
Definition identityString (i : Icon) : string :=
  URL i +:+ "-" +:+ fmt.d (Width i) +:+ "x" +:+ fmt.d (Height i).

(** The character [c] occurs in [s]. *)
Fixpoint occurs (c : ascii) (s : string) : bool :=
  match s with
  | EmptyString => false
  | String a r => Ascii.eqb a c || occurs c r
  end.

(** The filter [fn] lets the icon [i] through. *)
Definition accepts (i : Icon) (fn : Filter) : Prop := is_Some (fn i).

(** The option [o] adds the filters [fs], in this order, to a Finder. *)
Definition addsFilters (o : Option) (fs : list Filter) : Prop :=
  forall f, filters (o f) = filters f ++ fs.

(** * Properties *)

(** ** The digest and the formatting *)

Example sha256_constants :
  List.nth 0 sha256.K 0 = 0x428a2f98 /\ List.nth 63 sha256.K 0 = 0xc67178f2 /\
  List.nth 0 sha256.init 0 = 0x6a09e667 /\ List.nth 7 sha256.init 0 = 0x5be0cd19.
Proof. repeat split. Qed.

Example sha256_abc :
  fmt.x (sha256.Sum256 (bytes "abc")) =
  "ba7816bf8f01cfea414140de5dae2223b00361a396177a9cb410ff61f20015ad"%string.
Proof. vm_compute. reflexivity. Qed.

Example sha256_empty :
  fmt.x (sha256.Sum256 (bytes "")) =
  "e3b0c44298fc1c149afbf4c8996fb92427ae41e4649b934ca495991b7852b855"%string.
Proof. vm_compute. reflexivity. Qed.

Example sha256_two_blocks :
  fmt.x (sha256.Sum256 (bytes "abcdbcdecdefdefgefghfghighijhijkijkljklmklmnlmnomnopnopq")) =
  "248d6a61d20638b8e5c026930c3e6039a33ce45964ff2167f6ecedd419db06c1"%string.
Proof. vm_compute. reflexivity. Qed.

Example fmt_d_samples :
  fmt.d 0 = "0"%string /\ fmt.d 192 = "192"%string /\ fmt.d (-7) = "-7"%string.
Proof. repeat split. Qed.

Example iconHash_sample :
  iconHash (Cases.icon "https://a.com/c-32x32.png" "image/png" 32 32) =
  "4fd9a2a3fe83f4c54551e31033fa56af2dd840c1d69eda85566a5f9d2da76eb5"%string.
Proof. vm_compute. reflexivity. Qed.

Lemma iconHash_ext (a b : Icon) :
  URL a = URL b -> Width a = Width b -> Height a = Height b ->
  iconHash a = iconHash b.
Proof. unfold iconHash. intros -> -> ->. reflexivity. Qed.

(** The digest has eight words whatever the message. *)
Lemma round_length (st : list Z) (kw : Z * Z) :
  List.length st = 8%nat -> List.length (sha256.round st kw) = 8%nat.
Proof.
  intros Hlen. unfold sha256.round.
  do 9 (destruct st as [|? st]; try discriminate Hlen). reflexivity.
Qed.

Lemma rounds_length (kws : list (Z * Z)) (st : list Z) :
  List.length st = 8%nat -> List.length (List.fold_left sha256.round kws st) = 8%nat.
Proof.
  revert st. induction kws as [|kw kws IH]; intros st Hlen; simpl; [exact Hlen|].
  apply IH, round_length, Hlen.
Qed.

Lemma add_state_length (s1 s2 : list Z) :
  List.length s1 = List.length s2 ->
  List.length (sha256.add_state s1 s2) = List.length s1.
Proof.
  revert s2. induction s1 as [|a s1 IH]; intros [|b s2] Hlen; simpl in *;
    try discriminate; [reflexivity|].
  f_equal. apply IH. congruence.
Qed.

Lemma blocks_length (fuel : nat) (st bs : list Z) :
  List.length st = 8%nat -> List.length (sha256.blocks fuel st bs) = 8%nat.
Proof.
  revert st bs. induction fuel as [|fuel IH]; intros st bs Hlen; simpl; [exact Hlen|].
  destruct bs as [|b bs]; [exact Hlen|].
  apply IH. unfold sha256.block.
  rewrite add_state_length; [exact Hlen|].
  rewrite rounds_length; congruence.
Qed.

Lemma hex_length (bs : list Z) :
  String.length (fmt.x bs) = (2 * List.length bs)%nat.
Proof. induction bs as [|b bs IH]; simpl; [reflexivity|]. rewrite IH. lia. Qed.

Lemma Sum256_length (msg : list Z) : List.length (sha256.Sum256 msg) = 32%nat.
Proof.
  unfold sha256.Sum256.
  pose proof (blocks_length (List.length (sha256.pad msg)) sha256.init
                (sha256.pad msg) eq_refl) as Hlen.
  destruct (sha256.blocks _ _ _) as [|a0 [|a1 [|a2 [|a3 [|a4 [|a5 [|a6 [|a7 [|a8 l]]]]]]]]];
    try discriminate Hlen.
  reflexivity.
Qed.

(** C7: [iconHash] is the SHA-256 digest, written in hexadecimal, of the
    string "<url>-<width>x<height>"; it is 64 characters long, it reads
    no other field of the icon, and two icons with the same URL, width
    and height have the same hash. *)
Theorem iconHash_digest_of_identity :
  (forall i : Icon,
     iconHash i =
       fmt.x (sha256.Sum256
                (bytes (URL i +:+ "-" +:+ fmt.d (Width i) +:+ "x" +:+ fmt.d (Height i))))
     /\ String.length (iconHash i) = 64%nat)
  /\ (forall (url mime mime' ext ext' hash hash' : string) (w h : Z),
        iconHash {| URL := url; MimeType := mime; FileExt := ext;
                    Width := w; Height := h; Hash := hash |} =
        iconHash {| URL := url; MimeType := mime'; FileExt := ext';
                    Width := w; Height := h; Hash := hash' |})
  /\ (forall a b : Icon,
        URL a = URL b -> Width a = Width b -> Height a = Height b ->
        iconHash a = iconHash b).
Proof.
  split; [|split].
  - intros i. split; [reflexivity|].
    unfold iconHash. rewrite hex_length, Sum256_length. reflexivity.
  - intros. apply iconHash_ext; reflexivity.
  - exact iconHash_ext.
Qed.

Lemma iconHash_digest_of_identity_witness :
  iconHash Cases.first16 = iconHash Cases.second16.
Proof.
  apply (proj2 (proj2 iconHash_digest_of_identity)); reflexivity.
Defined.

(** ** The comparator *)

Lemma formatRank_table :
  formatRank "image/png" = 10 /\ formatRank "image/jpeg" = 9 /\
  formatRank "image/svg" = 8 /\ formatRank "image/x-icon" = 7 /\
  formatRank "image/vnd.microsoft.icon" = 7 /\ formatRank "text/html" = 0.
Proof. repeat split. Qed.

(** What [Less] computes: the format never takes part. *)
Lemma Less_width_then_URL (a b : Icon) :
  Less a b = (Width a >? Width b) || ((Width a =? Width b) && String.ltb (URL a) (URL b)).
Proof.
  unfold Less. rewrite Z.eqb_refl. simpl.
  destruct (Width a =? Width b) eqn:Hw; simpl.
  - apply Z.eqb_eq in Hw. rewrite Hw.
    replace (Width b >? Width b) with false; [reflexivity|].
    symmetry. rewrite Z.gtb_ltb. apply Z.ltb_irrefl.
  - rewrite orb_false_r. reflexivity.
Qed.

(** C1: at equal widths the specification puts a PNG before an ICO
    whatever their URLs; [Less] ranks both sides by the left icon's MIME
    type, so the rank never decides: the ICO with the smaller URL comes
    first, and no change of MIME types changes what [Less] answers. *)
Theorem Less_skips_format_priority :
  Less Cases.ico32 Cases.png32 = true /\
  Less_by_spec Cases.ico32 Cases.png32 = false /\
  Less Cases.png32 Cases.ico32 = false /\
  Less_by_spec Cases.png32 Cases.ico32 = true /\
  (forall a b ma mb, Less (with_MimeType a ma) (with_MimeType b mb) = Less a b).
Proof.
  repeat split. intros a b ma mb. rewrite !Less_width_then_URL. reflexivity.
Qed.

Lemma ltb_compare (s t : string) : String.ltb s t = true <-> String.compare s t = Lt.
Proof. unfold String.ltb. destruct (String.compare s t); split; congruence. Qed.

Lemma Less_iff (a b : Icon) :
  Less a b = true <->
  Width a > Width b \/ (Width a = Width b /\ String_as_OT.lt (URL a) (URL b)).
Proof.
  rewrite Less_width_then_URL, orb_true_iff, andb_true_iff.
  rewrite Z.gtb_ltb, Z.ltb_lt, Z.eqb_eq, ltb_compare.
  rewrite <- String_as_OT.cmp_lt. unfold String_as_OT.cmp.
  split; (intros [H|H]; [left; lia | right; exact H]).
Qed.

Lemma lts_irrefl (s : string) : ~ String_as_OT.lt s s.
Proof. intros H. exact (String_as_OT.lt_not_eq _ _ H eq_refl). Qed.

Lemma lts_total (s t : string) :
  String_as_OT.lt s t \/ s = t \/ String_as_OT.lt t s.
Proof.
  destruct (String.compare s t) eqn:Hc.
  - right; left. apply String_as_OT.cmp_eq. exact Hc.
  - left. apply String_as_OT.cmp_lt. exact Hc.
  - right; right. apply String_as_OT.cmp_lt. unfold String_as_OT.cmp.
    rewrite String.compare_antisym, Hc. reflexivity.
Qed.

Lemma Less_asym (a b : Icon) : Less a b = true -> Less b a = false.
Proof.
  intros Hab. apply not_true_is_false. intros Hba.
  apply Less_iff in Hab, Hba.
  destruct Hab as [Hab|[Hw Hab]], Hba as [Hba|[Hw' Hba]]; try lia.
  exact (lts_irrefl _ (String_as_OT.lt_trans _ _ _ Hab Hba)).
Qed.

Lemma notAfter_iff (a b : Icon) :
  notAfter a b <->
  Width a > Width b \/
  (Width a = Width b /\ (URL a = URL b \/ String_as_OT.lt (URL a) (URL b))).
Proof.
  unfold notAfter. rewrite <- not_true_iff_false, Less_iff.
  destruct (lts_total (URL a) (URL b)) as [Hlt|[Heq|Hgt]].
  - split.
    + intros Hn.
      destruct (Z.lt_trichotomy (Width a) (Width b)) as [Hw|[Hw|Hw]];
        [exfalso; apply Hn; left; lia | right; auto | left; lia].
    + intros [Hw|[Hw _]] [Hw'|[Hw' Hlt']]; try lia.
      exact (lts_irrefl _ (String_as_OT.lt_trans _ _ _ Hlt Hlt')).
  - split.
    + intros Hn.
      destruct (Z.lt_trichotomy (Width a) (Width b)) as [Hw|[Hw|Hw]];
        [exfalso; apply Hn; left; lia | right; auto | left; lia].
    + intros [Hw|[Hw _]] [Hw'|[Hw' Hlt']]; try lia.
      rewrite Heq in Hlt'. exact (lts_irrefl _ Hlt').
  - split.
    + intros Hn.
      destruct (Z.lt_trichotomy (Width a) (Width b)) as [Hw|[Hw|Hw]];
        [exfalso; apply Hn; left; lia | exfalso; apply Hn; right; auto | left; lia].
    + intros [Hw|[Hw [Heq|Hlt]]] [Hw'|[Hw' Hlt']]; try lia.
      * rewrite Heq in Hgt. exact (lts_irrefl _ Hgt).
      * exact (lts_irrefl _ (String_as_OT.lt_trans _ _ _ Hlt Hgt)).
Qed.

#[local] Instance notAfter_trans : Transitive notAfter.
Proof.
  intros a b c Hab Hbc. apply notAfter_iff in Hab, Hbc. apply notAfter_iff.
  destruct Hab as [Hab|[Hw Hab]], Hbc as [Hbc|[Hw' Hbc]]; try (left; lia).
  right. split; [lia|].
  destruct Hab as [Hab|Hab], Hbc as [Hbc|Hbc].
  - left. congruence.
  - right. rewrite Hab. exact Hbc.
  - right. rewrite <- Hbc. exact Hab.
  - right. exact (String_as_OT.lt_trans _ _ _ Hab Hbc).
Qed.

Lemma notAfter_antisym (a b : Icon) :
  notAfter a b -> notAfter b a -> Width a = Width b /\ URL a = URL b.
Proof.
  intros Hab Hba. apply notAfter_iff in Hab, Hba.
  destruct Hab as [Hab|[Hw Hab]], Hba as [Hba|[Hw' Hba]]; try lia.
  split; [exact Hw|].
  destruct Hab as [Hab|Hab]; [exact Hab|].
  destruct Hba as [Hba|Hba]; [congruence|].
  exfalso. exact (lts_irrefl _ (String_as_OT.lt_trans _ _ _ Hab Hba)).
Qed.

(** ** The sort *)

Lemma bubble_perm (x : Icon) (rpre : list Icon) : sort.bubble x rpre ≡ₚ x :: rpre.
Proof.
  induction rpre as [|y r IH]; simpl; [reflexivity|].
  destruct (Less x y); [|reflexivity].
  rewrite IH. apply perm_swap.
Qed.

Lemma insertion_loop_perm (data acc : list Icon) :
  List.fold_left (fun rpre x => sort.bubble x rpre) data acc ≡ₚ data ++ acc.
Proof.
  revert acc. induction data as [|x data IH]; intros acc; simpl; [reflexivity|].
  rewrite IH, bubble_perm. symmetry. apply Permutation_middle.
Qed.

Lemma Sort_perm (data : list Icon) : sort.Sort data ≡ₚ data.
Proof.
  unfold sort.Sort, sort.insertionSort.
  rewrite reverse_Permutation, insertion_loop_perm, app_nil_r. reflexivity.
Qed.

Lemma bubble_hd (x : Icon) (rpre : list Icon) (z : Icon) :
  Less z x = false -> HdRel (fun later earlier => Less later earlier = false) z rpre ->
  HdRel (fun later earlier => Less later earlier = false) z (sort.bubble x rpre).
Proof.
  intros Hzx Hhd. destruct rpre as [|y r]; simpl.
  - constructor. exact Hzx.
  - destruct (Less x y); constructor; [|exact Hzx].
    inversion Hhd; assumption.
Qed.

Lemma bubble_sorted (x : Icon) (rpre : list Icon) :
  Sorted (fun later earlier => Less later earlier = false) rpre ->
  Sorted (fun later earlier => Less later earlier = false) (sort.bubble x rpre).
Proof.
  induction 1 as [|y r Hs IH Hhd]; simpl.
  - repeat constructor.
  - destruct (Less x y) eqn:Hxy.
    + constructor; [exact IH|]. apply bubble_hd; [|exact Hhd].
      apply Less_asym, Hxy.
    + constructor; [constructor; assumption|]. constructor. exact Hxy.
Qed.

Lemma insertion_loop_sorted (data acc : list Icon) :
  Sorted (fun later earlier => Less later earlier = false) acc ->
  Sorted (fun later earlier => Less later earlier = false)
         (List.fold_left (fun rpre x => sort.bubble x rpre) data acc).
Proof.
  revert acc. induction data as [|x data IH]; intros acc Hacc; simpl; [exact Hacc|].
  apply IH, bubble_sorted, Hacc.
Qed.

(** The result is ordered: no icon is [Less] than its predecessor. *)
Lemma Sort_sorted (data : list Icon) : Sorted notAfter (sort.Sort data).
Proof.
  unfold sort.Sort, sort.insertionSort.
  apply (Sorted_reverse (fun later earlier => Less later earlier = false)).
  apply insertion_loop_sorted. constructor.
Qed.

(** Two sorted arrangements of the same icons agree when [Less] tells
    any two different icons among them apart. *)
Lemma sorted_arrangement_unique (l1 l2 : list Icon) :
  (forall a b, a ∈ l1 -> b ∈ l1 -> Width a = Width b -> URL a = URL b -> a = b) ->
  Sorted notAfter l1 -> Sorted notAfter l2 -> l1 ≡ₚ l2 -> l1 = l2.
Proof.
  intros Hdistinct Hs1 Hs2 Hperm.
  apply (Sorted_unique_strong notAfter); try assumption.
  intros a b Ha Hb Hab Hba.
  destruct (notAfter_antisym a b Hab Hba) as [Hw Hu].
  apply Hdistinct; try assumption.
  rewrite Hperm. exact Hb.
Qed.

(** ** The filter chain *)

Lemma filterIcons_omap (fs : list Filter) (order : list Icon) :
  filterIcons fs order = omap (applyFilters fs) order.
Proof.
  induction order as [|i order IH]; simpl; [reflexivity|].
  rewrite IH. destruct (applyFilters fs i); reflexivity.
Qed.

Lemma filterIcons_perm (fs : list Filter) (o1 o2 : list Icon) :
  o1 ≡ₚ o2 -> filterIcons fs o1 ≡ₚ filterIcons fs o2.
Proof. intros Hp. rewrite !filterIcons_omap, Hp. reflexivity. Qed.

Lemma elem_of_filterIcons (fs : list Filter) (order : list Icon) (i : Icon) :
  i ∈ filterIcons fs order <-> exists c, c ∈ order /\ applyFilters fs c = Some i.
Proof. rewrite filterIcons_omap. apply list_elem_of_omap. Qed.

Lemma applyFilters_app (fs1 fs2 : list Filter) (i : Icon) :
  applyFilters (fs1 ++ fs2) i =
  match applyFilters fs1 i with
  | None => None
  | Some i' => applyFilters fs2 i'
  end.
Proof.
  revert i. induction fs1 as [|fn fs1 IH]; intros i; simpl; [reflexivity|].
  destruct (fn i); [apply IH|reflexivity].
Qed.

Lemma applyFilters_selective (fs : list Filter) (i i' : Icon) :
  Forall selective fs -> applyFilters fs i = Some i' -> i' = i.
Proof.
  intros Hfs. revert i. induction Hfs as [|fn fs Hfn _ IH]; intros i; simpl.
  - congruence.
  - destruct (fn i) as [j|] eqn:Hj; [|discriminate].
    intros Hi'. apply Hfn in Hj. subst j. apply IH, Hi'.
Qed.

Lemma builtin_filters_selective (w : Z) (mimeType : list string) :
  selective (minWidthFilter w) /\ selective (maxWidthFilter w) /\
  selective (minHeightFilter w) /\ selective (maxHeightFilter w) /\
  selective (mimeTypeIn mimeType) /\ selective noSizeFilter /\
  selective icoFilter /\ selective squareFilter.
Proof.
  unfold selective, minWidthFilter, maxWidthFilter, minHeightFilter,
    maxHeightFilter, noSizeFilter, icoFilter, squareFilter.
  repeat split; intros i i'; try (case_match; congruence).
  induction mimeType as [|s rest IH]; simpl; [discriminate|].
  destruct (String.eqb (MimeType i) s); [congruence|exact IH].
Qed.

Lemma filterIcons_selective (fs : list Filter) (order : list Icon) :
  Forall selective fs ->
  filterIcons fs order = filter (fun i => is_Some (applyFilters fs i)) order.
Proof.
  intros Hfs. induction order as [|i order IH]; simpl; [reflexivity|].
  destruct (applyFilters fs i) as [i'|] eqn:Hi.
  - apply (applyFilters_selective fs i i' Hfs) in Hi as Heq. subst i'.
    rewrite filter_cons_True by (rewrite Hi; eauto). rewrite IH. reflexivity.
  - rewrite filter_cons_False by (rewrite Hi; apply is_Some_None). exact IH.
Qed.

Lemma filter_swap {A} (P1 P2 : A -> Prop)
  `{!forall x, Decision (P1 x), !forall x, Decision (P2 x)} (l : list A) :
  filter P1 (filter P2 l) = filter P2 (filter P1 l).
Proof. rewrite !list_filter_filter. apply list_filter_iff. tauto. Qed.

(** ** Normalisation and the map of the first loop *)

Section Tidy.

Context {E : Externals}.

Lemma normalize_Some (p : parser) (icon i : Icon) :
  normalize p icon = Some i ->
  URL i <> ""%string /\ MimeType i <> ""%string /\ Hash i = iconHash i /\
  URL i = URL (resolve p icon) /\ MimeType i = MimeType (resolve p icon).
Proof.
  unfold normalize.
  destruct (String.eqb (URL (resolve p icon)) "") eqn:Hu; [discriminate|].
  destruct (String.eqb (MimeType (resolve p icon)) "") eqn:Hm; [discriminate|].
  apply String.eqb_neq in Hu, Hm. simpl.
  intros [= <-].
  repeat case_match; simpl; repeat split; auto.
Qed.

Lemma normalize_None (p : parser) (icon : Icon) :
  normalize p icon = None <->
  URL (resolve p icon) = ""%string \/ MimeType (resolve p icon) = ""%string.
Proof.
  unfold normalize.
  destruct (String.eqb (URL (resolve p icon)) "") eqn:Hu;
    destruct (String.eqb (MimeType (resolve p icon)) "") eqn:Hm; simpl;
    rewrite ?String.eqb_eq, ?String.eqb_neq in *;
    split; auto; try discriminate; intros [?|?]; congruence.
Qed.

Lemma absURL_baseURL (p1 p2 : parser) (url : string) :
  baseURL p1 = baseURL p2 -> absURL p1 url = absURL p2 url.
Proof. unfold absURL. intros ->. reflexivity. Qed.

Lemma normalize_baseURL (p1 p2 : parser) (icon : Icon) :
  baseURL p1 = baseURL p2 -> normalize p1 icon = normalize p2 icon.
Proof.
  intros Hb. unfold normalize, resolve.
  rewrite (absURL_baseURL p1 p2 _ Hb). reflexivity.
Qed.

Lemma tidy_baseURL (p1 p2 : parser) (icons : list Icon) :
  baseURL p1 = baseURL p2 -> tidy p1 icons = tidy p2 icons.
Proof.
  intros Hb. unfold tidy. generalize (∅ : gmap string Icon).
  induction icons as [|icon icons IH]; intros m; simpl; [reflexivity|].
  unfold tidy_step at 2 4. rewrite (normalize_baseURL p1 p2 icon Hb). apply IH.
Qed.

Lemma lastWithHash_Some (p : parser) (h : string) (icons : list Icon) (c : Icon) :
  lastWithHash p h icons = Some c ->
  Hash c = h /\ exists icon, icon ∈ icons /\ normalize p icon = Some c.
Proof.
  induction icons as [|icon icons IH]; simpl; [discriminate|].
  destruct (lastWithHash p h icons) as [c'|].
  - intros [= ->]. destruct (IH eq_refl) as [Hh (ic & Hin & Hn)].
    split; [exact Hh|]. exists ic. split; [right; exact Hin|exact Hn].
  - destruct (normalize p icon) as [i|] eqn:Hn; [|discriminate].
    destruct (String.eqb (Hash i) h) eqn:Hh; [|discriminate].
    intros [= ->]. apply String.eqb_eq in Hh.
    split; [exact Hh|]. exists icon. split; [left|exact Hn].
Qed.

Lemma lastWithHash_hd (p : parser) (h : string) (icon i : Icon) (rest : list Icon) :
  normalize p icon = Some i -> Hash i = h ->
  is_Some (lastWithHash p h (icon :: rest)).
Proof.
  intros Hn Hh. simpl. destruct (lastWithHash p h rest); [eauto|].
  rewrite Hn. rewrite (proj2 (String.eqb_eq _ _) Hh). eauto.
Qed.

Lemma lastWithHash_app (p : parser) (h : string) (pre post : list Icon) :
  lastWithHash p h (pre ++ post) =
  match lastWithHash p h post with
  | Some c => Some c
  | None => lastWithHash p h pre
  end.
Proof.
  induction pre as [|icon pre IH]; simpl.
  - destruct (lastWithHash p h post); reflexivity.
  - rewrite IH. destruct (lastWithHash p h post); reflexivity.
Qed.

(** The first loop, from any map: a key holds the last icon inserted
    under it, or what it held before. *)
Lemma tidy_loop_lookup (p : parser) (icons : list Icon) (m : gmap string Icon)
  (h : string) :
  List.fold_left (tidy_step p) icons m !! h =
  match lastWithHash p h icons with
  | Some c => Some c
  | None => m !! h
  end.
Proof.
  revert m. induction icons as [|icon icons IH]; intros m; simpl; [reflexivity|].
  rewrite IH. destruct (lastWithHash p h icons) as [c|]; [reflexivity|].
  unfold tidy_step. destruct (normalize p icon) as [i|]; [|reflexivity].
  destruct (String.eqb (Hash i) h) eqn:Hh.
  - apply String.eqb_eq in Hh. subst h. apply lookup_insert_eq.
  - apply String.eqb_neq in Hh. apply lookup_insert_ne. exact Hh.
Qed.

Lemma tidy_lookup (p : parser) (icons : list Icon) (h : string) :
  tidy p icons !! h = lastWithHash p h icons.
Proof.
  unfold tidy. rewrite tidy_loop_lookup, lookup_empty.
  destruct (lastWithHash p h icons); reflexivity.
Qed.

(** Every entry of the map is a normalised input icon under its own
    hash. *)
Lemma tidy_entry (p : parser) (icons : list Icon) (h : string) (i : Icon) :
  tidy p icons !! h = Some i ->
  Hash i = h /\ exists icon, icon ∈ icons /\ normalize p icon = Some i.
Proof. rewrite tidy_lookup. apply lastWithHash_Some. Qed.

Lemma elem_of_values (m : gmap string Icon) (i : Icon) :
  i ∈ (map_to_list m).*2 <-> exists h, m !! h = Some i.
Proof.
  rewrite list_elem_of_fmap. split.
  - intros ([h i'] & -> & Hin). exists h. apply elem_of_map_to_list. exact Hin.
  - intros [h Hh]. exists (h, i). split; [reflexivity|].
    apply elem_of_map_to_list. exact Hh.
Qed.

Lemma filter_hash_absent (l : list (string * Icon)) (h : string) :
  (forall k v, (k, v) ∈ l -> Hash v = k) -> h ∉ l.*1 ->
  filter (fun i => Hash i = h) l.*2 = [].
Proof.
  induction l as [|[k v] l IH]; intros Hkeys Hk; [reflexivity|].
  simpl in *. apply not_elem_of_cons in Hk as [Hne Hk].
  rewrite filter_cons_False.
  - apply IH; [|exact Hk]. intros k' v' Hin. apply Hkeys. right. exact Hin.
  - rewrite (Hkeys k v) by left. congruence.
Qed.

(** Among pairs with distinct keys whose values carry their key as
    hash, one value has the hash [h]. *)
Lemma filter_hash_unique (l : list (string * Icon)) (h : string) (c : Icon) :
  NoDup l.*1 -> (forall k v, (k, v) ∈ l -> Hash v = k) -> (h, c) ∈ l ->
  filter (fun i => Hash i = h) l.*2 = [c].
Proof.
  induction l as [|[k v] l IH]; intros Hnd Hkeys Hc; [inversion Hc|].
  simpl in *. apply NoDup_cons in Hnd as [Hk Hnd].
  assert (Hv : Hash v = k) by (apply Hkeys; left).
  assert (Hkeys' : forall k' v', (k', v') ∈ l -> Hash v' = k').
  { intros k' v' Hin. apply Hkeys. right. exact Hin. }
  apply elem_of_cons in Hc as [Heq|Hin].
  - injection Heq as <- <-.
    rewrite filter_cons_True by exact Hv. f_equal.
    apply filter_hash_absent; assumption.
  - rewrite filter_cons_False; [apply IH; auto|].
    rewrite Hv. intros ->. apply Hk.
    apply list_elem_of_fmap. exists (h, c). split; [reflexivity|exact Hin].
Qed.

(** One value of the map carries a given key as its hash. *)
Lemma values_with_hash (p : parser) (icons : list Icon) (h : string) (c : Icon) :
  tidy p icons !! h = Some c ->
  filter (fun i => Hash i = h) (map_to_list (tidy p icons)).*2 = [c].
Proof.
  intros Hc. apply filter_hash_unique.
  - apply NoDup_fst_map_to_list.
  - intros k v Hin. apply elem_of_map_to_list in Hin.
    apply (tidy_entry _ _ _ _ Hin).
  - apply elem_of_map_to_list. exact Hc.
Qed.

(** The icons of every result are those of the map that the filters
    let through, whatever the visiting order. *)
Lemma postProcessIcons_perm (p : parser) (icons out : list Icon) :
  postProcessIcons p icons out ->
  out ≡ₚ filterIcons (filters (find p)) (map_to_list (tidy p icons)).*2.
Proof.
  intros (order & Horder & ->). unfold filterAndSort.
  rewrite Sort_perm. apply filterIcons_perm. exact Horder.
Qed.

Lemma postProcessIcons_run_possible (p : parser) (icons : list Icon) :
  postProcessIcons p icons (postProcessIcons_run p icons).
Proof. eexists. split; [unfold rangeOrder|]; reflexivity. Qed.

End Tidy.

(** ** Determinism of the result *)

(** C2, as stated, fails: two icons with the same URL and width but
    different heights are kept apart by their hashes and tie under
    [Less], so the result lists them in the order in which the map
    happened to be visited. *)
Lemma order_varies_between_runs :
  postProcessIcons (E := Sample.env) (Cases.bare [])
    [Cases.strip16; Cases.strip32] [Cases.strip16h; Cases.strip32h] /\
  postProcessIcons (E := Sample.env) (Cases.bare [])
    [Cases.strip16; Cases.strip32] [Cases.strip32h; Cases.strip16h] /\
  [Cases.strip16h; Cases.strip32h] <> [Cases.strip32h; Cases.strip16h].
Proof.
  split; [|split].
  - exists [Cases.strip16h; Cases.strip32h]. split; [|reflexivity].
    unfold rangeOrder. vm_compute.
    first [reflexivity | apply perm_swap].
  - exists [Cases.strip32h; Cases.strip16h]. split; [|reflexivity].
    unfold rangeOrder. vm_compute.
    first [reflexivity | apply perm_swap].
  - discriminate.
Qed.

(** C2, amended: two runs on the same candidates return the same icons,
    each time in an order in which no icon is [Less] than its
    predecessor; the two sequences are equal whenever any two different
    icons of the result differ in width or in URL. *)
Theorem runs_agree_up_to_ties {E : Externals} (p : parser) (icons out1 out2 : list Icon) :
  postProcessIcons p icons out1 -> postProcessIcons p icons out2 ->
  out1 ≡ₚ out2 /\ Sorted notAfter out1 /\ Sorted notAfter out2 /\
  ((forall a b, a ∈ out1 -> b ∈ out1 -> Width a = Width b -> URL a = URL b -> a = b) ->
   out1 = out2).
Proof.
  intros H1 H2.
  assert (Hperm : out1 ≡ₚ out2).
  { rewrite (postProcessIcons_perm p icons out1 H1).
    rewrite (postProcessIcons_perm p icons out2 H2). reflexivity. }
  assert (Hs1 : Sorted notAfter out1).
  { destruct H1 as (o & _ & ->). apply Sort_sorted. }
  assert (Hs2 : Sorted notAfter out2).
  { destruct H2 as (o & _ & ->). apply Sort_sorted. }
  repeat split; try assumption.
  intros Hdistinct. apply sorted_arrangement_unique; assumption.
Qed.

Lemma runs_agree_up_to_ties_witness :
  filterAndSort (Cases.bare [])
    (reverse (map_to_list (tidy (E := Sample.env) (Cases.bare []) Cases.mixed)).*2) =
  postProcessIcons_run (E := Sample.env) (Cases.bare []) Cases.mixed.
Proof.
  apply (proj2 (proj2 (proj2
           (runs_agree_up_to_ties (E := Sample.env) (Cases.bare []) Cases.mixed _ _
              (ex_intro _ _ (conj (reverse_Permutation _) eq_refl))
              (postProcessIcons_run_possible _ _))))).
  intros a b Ha Hb Hw Hu. vm_compute in Ha, Hb.
  repeat (apply elem_of_cons in Ha as [->|Ha]);
    try (apply elem_of_nil in Ha; contradiction);
    repeat (apply elem_of_cons in Hb as [->|Hb]);
    try (apply elem_of_nil in Hb; contradiction);
    first [reflexivity | discriminate Hw | discriminate Hu].
Defined.

(** ** De-duplication *)

(** C4, as stated, fails: two candidates with the same URL, width and
    height leave no entry at all in the result when a filter rejects
    them, here [MinWidth 100] on icons 16 wide. *)
Lemma rejected_duplicates_leave_no_entry :
  let p := Cases.bare [MinWidth 100] in
  normalize (E := Sample.env) p Cases.first16 = Some Cases.first16h /\
  normalize (E := Sample.env) p Cases.second16 = Some Cases.second16h /\
  URL Cases.first16h = URL Cases.second16h /\
  Width Cases.first16h = Width Cases.second16h /\
  Height Cases.first16h = Height Cases.second16h /\
  forall out,
    postProcessIcons (E := Sample.env) p [Cases.first16; Cases.second16] out ->
    out = [].
Proof.
  repeat split; try (vm_compute; reflexivity).
  intros out Hout. apply postProcessIcons_perm in Hout.
  apply Permutation_nil_r. rewrite Hout. vm_compute. reflexivity.
Qed.

(** C4, amended: two candidates that survive normalisation with the same
    URL, width and height have the same hash, and the map holds under it
    one icon, the last candidate with that hash in input order; when the
    filters only accept or reject, every result holds that icon once if
    the filters accept it, and no icon with that hash otherwise. *)
Theorem duplicates_collapse_to_last {E : Externals} (p : parser)
  (pre mid post : list Icon) (ci cj a b : Icon) :
  normalize p ci = Some a -> normalize p cj = Some b ->
  URL a = URL b -> Width a = Width b -> Height a = Height b ->
  let icons := pre ++ ci :: mid ++ cj :: post in
  Hash a = Hash b /\
  exists c,
    lastWithHash p (Hash a) (cj :: post) = Some c /\
    tidy p icons !! Hash a = Some c /\
    filter (fun i => Hash i = Hash a) (map_to_list (tidy p icons)).*2 = [c] /\
    forall out,
      Forall selective (filters (find p)) -> postProcessIcons p icons out ->
      countHash (Hash a) out =
        match applyFilters (filters (find p)) c with Some _ => 1%nat | None => 0%nat end.
Proof.
  intros Ha Hb Hu Hw Hh icons.
  assert (Hab : Hash a = Hash b).
  { destruct (normalize_Some p ci a Ha) as (_ & _ & -> & _).
    destruct (normalize_Some p cj b Hb) as (_ & _ & -> & _).
    apply iconHash_ext; assumption. }
  split; [exact Hab|].
  destruct (lastWithHash_hd p (Hash a) cj b post Hb (eq_sym Hab)) as [c Hc].
  assert (Hm : tidy p icons !! Hash a = Some c).
  { rewrite tidy_lookup. unfold icons.
    rewrite lastWithHash_app.
    change (ci :: mid ++ cj :: post) with ((ci :: mid) ++ cj :: post).
    rewrite lastWithHash_app, Hc. reflexivity. }
  exists c. repeat split; try assumption.
  - apply values_with_hash. exact Hm.
  - intros out Hsel Hout. unfold countHash.
    rewrite (postProcessIcons_perm p icons out Hout).
    rewrite (filterIcons_selective _ _ Hsel), filter_swap.
    rewrite (values_with_hash p icons (Hash a) c Hm).
    rewrite filter_singleton by exact [].
    destruct (applyFilters (filters (find p)) c) eqn:Hf.
    + rewrite decide_True by eauto. reflexivity.
    + rewrite decide_False by (apply is_Some_None). reflexivity.
Qed.

Lemma duplicates_collapse_to_last_witness :
  Hash Cases.first16h = Hash Cases.second16h /\
  exists c,
    lastWithHash (E := Sample.env) (Cases.bare []) (Hash Cases.first16h)
      [Cases.second16] = Some c /\
    tidy (E := Sample.env) (Cases.bare [])
      ([] ++ Cases.first16 :: [Cases.strip32] ++ Cases.second16 :: [])
      !! Hash Cases.first16h = Some c /\
    filter (fun i => Hash i = Hash Cases.first16h)
      (map_to_list (tidy (E := Sample.env) (Cases.bare [])
         ([] ++ Cases.first16 :: [Cases.strip32] ++ Cases.second16 :: []))).*2 = [c] /\
    forall out,
      Forall selective (filters (find (Cases.bare []))) ->
      postProcessIcons (E := Sample.env) (Cases.bare [])
        ([] ++ Cases.first16 :: [Cases.strip32] ++ Cases.second16 :: []) out ->
      countHash (Hash Cases.first16h) out =
        match applyFilters (filters (find (Cases.bare []))) c with
        | Some _ => 1%nat
        | None => 0%nat
        end.
Proof.
  apply (duplicates_collapse_to_last (E := Sample.env) (Cases.bare [])
           [] [Cases.strip32] [] Cases.first16 Cases.second16
           Cases.first16h Cases.second16h);
    vm_compute; reflexivity.
Defined.

(** The map keeps the later of the two, with its own MIME type. *)
Example duplicates_keep_second :
  tidy (E := Sample.env) (Cases.bare []) [Cases.first16; Cases.second16]
    !! Hash Cases.first16h = Some Cases.second16h /\
  postProcessIcons_run (E := Sample.env) (Cases.bare [])
    [Cases.first16; Cases.second16] = [Cases.second16h].
Proof. split; vm_compute; reflexivity. Qed.

(** ** The invariant of normalisation *)

(** C5, as stated, fails: a filter may rewrite the icon it is given, and
    nothing is checked after the filters; here the result holds an icon
    whose MIME type a filter has erased. *)
Lemma filter_can_erase_mime :
  postProcessIcons (E := Sample.env) (Cases.bare [WithFilter [Cases.eraseMime]])
    [Cases.first16] [with_MimeType Cases.first16h ""] /\
  MimeType (with_MimeType Cases.first16h "") = ""%string.
Proof.
  split; [|reflexivity].
  exists [Cases.first16h]. split; [|reflexivity].
  unfold rangeOrder. vm_compute. reflexivity.
Qed.

(** C5, amended: a candidate whose URL or MIME type is empty after URL
    resolution and MIME inference is dropped and leaves the map as it
    was; every icon of the map, hence every icon a filter is applied
    to first, has a non-empty URL and MIME type; every icon of a result
    is what the filters made of an icon of the map, so that it has a
    non-empty URL and MIME type when the filters only accept or
    reject. *)
Theorem normalized_before_filters {E : Externals} (p : parser) (icons : list Icon) :
  (forall icon m,
     URL (resolve p icon) = ""%string \/ MimeType (resolve p icon) = ""%string ->
     normalize p icon = None /\ tidy_step p m icon = m) /\
  (forall h i, tidy p icons !! h = Some i ->
     URL i <> ""%string /\ MimeType i <> ""%string) /\
  (forall order c, rangeOrder (tidy p icons) order -> c ∈ order ->
     URL c <> ""%string /\ MimeType c <> ""%string) /\
  (forall out i, postProcessIcons p icons out -> i ∈ out ->
     exists h c, tidy p icons !! h = Some c /\
                 applyFilters (filters (find p)) c = Some i) /\
  (forall out i, Forall selective (filters (find p)) ->
     postProcessIcons p icons out -> i ∈ out ->
     URL i <> ""%string /\ MimeType i <> ""%string).
Proof.
  assert (Hmap : forall h i, tidy p icons !! h = Some i ->
                   URL i <> ""%string /\ MimeType i <> ""%string).
  { intros h i Hi. destruct (tidy_entry p icons h i Hi) as (_ & icon & _ & Hn).
    destruct (normalize_Some p icon i Hn) as (Hu & Hm & _). split; assumption. }
  assert (Hout : forall out i, postProcessIcons p icons out -> i ∈ out ->
                   exists h c, tidy p icons !! h = Some c /\
                               applyFilters (filters (find p)) c = Some i).
  { intros out i Hpost Hi. rewrite (postProcessIcons_perm p icons out Hpost) in Hi.
    apply elem_of_filterIcons in Hi as (c & Hc & Hf).
    apply elem_of_values in Hc as [h Hh]. exists h, c. split; assumption. }
  split; [|split; [|split; [|split]]].
  - intros icon m Hempty. apply normalize_None in Hempty.
    split; [exact Hempty|]. unfold tidy_step. rewrite Hempty. reflexivity.
  - exact Hmap.
  - intros order c Horder Hc. rewrite Horder in Hc.
    apply elem_of_values in Hc as [h Hh]. apply (Hmap h c Hh).
  - exact Hout.
  - intros out i Hsel Hpost Hi.
    destruct (Hout out i Hpost Hi) as (h & c & Hc & Hf).
    apply (applyFilters_selective _ _ _ Hsel) in Hf. subst i. apply (Hmap h c Hc).
Qed.

Lemma normalized_before_filters_witness :
  URL Cases.a16h <> ""%string /\ MimeType Cases.a16h <> ""%string.
Proof.
  apply (proj2 (proj2 (proj2 (proj2
           (normalized_before_filters (E := Sample.env)
              (Cases.based [OnlySquare]) Cases.raw)))))
    with (out := postProcessIcons_run (E := Sample.env)
                   (Cases.based [OnlySquare]) Cases.raw).
  - repeat constructor. apply (builtin_filters_selective 0 []).
  - apply postProcessIcons_run_possible.
  - vm_compute. left.
Defined.

(** Candidates without URL or without a MIME type to infer are dropped. *)
Example unresolved_candidates_dropped :
  postProcessIcons_run (E := Sample.env) (Cases.based []) Cases.raw = [Cases.a16h].
Proof. vm_compute. reflexivity. Qed.

(** ** URL resolution *)




(** An absolute input that is written as [String] writes it. *)
Example absolute_input_wins :
  absURL (E := Sample.env) (Cases.based []) "https://b.com/x" = "https://b.com/x"%string.
Proof. reflexivity. Qed.

(** The table of [TestParserAbsURL], on the sample resolver. *)
Example absURL_table :
  let github := Sample.Parse "https://github.com" in
  let google := Sample.Parse "https://google.com" in
  let abs (base : option urls.URL) (url : string) :=
    absURL (E := Sample.env) {| baseURL := base; charset := ""; find := New [] |} url in
  is_Some github /\ is_Some google /\
  abs None "" = ""%string /\
  abs github "" = ""%string /\
  abs None "/root" = "/root"%string /\
  abs github "/root" = "https://github.com/root"%string /\
  abs github "https://github.com/root" = "https://github.com/root"%string /\
  abs google "https://github.com/root" = "https://github.com/root"%string /\
  abs None "https://github.com/root" = "https://github.com/root"%string /\
  abs github ":bad" = ""%string.
Proof. vm_compute. repeat split; eauto. Qed.

(** ** The built-in filters *)

(** C8: [IsSquare] holds exactly when width and height are equal; an
    icon of unknown size, 0 by 0, is square; the filter that
    [OnlySquare] installs returns a square icon as it is and rejects
    every icon whose width differs from its height. *)
Theorem square_classification :
  (forall i, IsSquare i = true <-> Width i = Height i) /\
  (forall i, Width i = 0 -> Height i = 0 ->
     IsSquare i = true /\ squareFilter i = Some i) /\
  (forall i, Width i = Height i -> squareFilter i = Some i) /\
  (forall i, Width i <> Height i -> squareFilter i = None) /\
  (forall f, filters (OnlySquare f) = filters f ++ [squareFilter]) /\
  filters (New [OnlySquare]) = [squareFilter].
Proof.
  assert (Hsq : forall i, IsSquare i = true <-> Width i = Height i).
  { intros i. unfold IsSquare. apply Z.eqb_eq. }
  assert (Hpass : forall i, Width i = Height i -> squareFilter i = Some i).
  { intros i Hi. unfold squareFilter. rewrite (proj2 (Hsq i) Hi). reflexivity. }
  split; [exact Hsq|]. split; [|split; [exact Hpass|split; [|split; reflexivity]]].
  - intros i Hw Hh. split; [apply Hsq|apply Hpass]; congruence.
  - intros i Hne. unfold squareFilter.
    destruct (IsSquare i) eqn:Hi; [|reflexivity].
    apply Hsq in Hi. contradiction.
Qed.

Lemma square_classification_witness :
  IsSquare (Icon_of_URL "https://a.com/favicon.ico") = true /\
  squareFilter (Icon_of_URL "https://a.com/favicon.ico") =
    Some (Icon_of_URL "https://a.com/favicon.ico") /\
  squareFilter Cases.strip32 = None.
Proof.
  destruct square_classification as (_ & Hzero & _ & Hreject & _).
  split; [|split].
  - apply (Hzero (Icon_of_URL "https://a.com/favicon.ico")); reflexivity.
  - apply (Hzero (Icon_of_URL "https://a.com/favicon.ico")); reflexivity.
  - apply (Hreject Cases.strip32). discriminate.
Defined.

Lemma width_chain_min_max (order : list Icon) :
  filterIcons [minWidthFilter 100; maxWidthFilter 200] order =
  filter (fun i => 100 <= Width i <= 200) order.
Proof.
  induction order as [|i order IH]; [reflexivity|].
  cbn [filterIcons applyFilters]. unfold minWidthFilter at 1.
  destruct (Z.ltb_spec (Width i) 100) as [Hlo|Hlo].
  - rewrite filter_cons_False by lia. exact IH.
  - unfold maxWidthFilter at 1. rewrite Z.gtb_ltb.
    destruct (Z.ltb_spec 200 (Width i)) as [Hhi|Hhi].
    + rewrite filter_cons_False by lia. exact IH.
    + rewrite filter_cons_True by lia. rewrite IH. reflexivity.
Qed.

Lemma width_chain_max_min (order : list Icon) :
  filterIcons [maxWidthFilter 200; minWidthFilter 100] order =
  filter (fun i => 100 <= Width i <= 200) order.
Proof.
  induction order as [|i order IH]; [reflexivity|].
  cbn [filterIcons applyFilters]. unfold maxWidthFilter at 1. rewrite Z.gtb_ltb.
  destruct (Z.ltb_spec 200 (Width i)) as [Hhi|Hhi].
  - rewrite filter_cons_False by lia. exact IH.
  - unfold minWidthFilter at 1.
    destruct (Z.ltb_spec (Width i) 100) as [Hlo|Hlo].
    + rewrite filter_cons_False by lia. exact IH.
    + rewrite filter_cons_True by lia. rewrite IH. reflexivity.
Qed.

(** C6: with [MinWidth 100] and [MaxWidth 200], given in either order,
    the filter loop keeps of any candidates exactly those whose width
    lies between 100 and 200 inclusive, in the order it met them; the
    results of the two finders on the same candidates hold the same
    icons, those of the map with such a width. *)
Theorem width_bounds_in_either_order :
  (forall order,
     filterIcons (filters (New [MinWidth 100; MaxWidth 200])) order =
       filter (fun i => 100 <= Width i <= 200) order /\
     filterIcons (filters (New [MaxWidth 200; MinWidth 100])) order =
       filter (fun i => 100 <= Width i <= 200) order) /\
  (forall (E : Externals) (p1 p2 : parser) (icons out1 out2 : list Icon),
     baseURL p1 = baseURL p2 ->
     find p1 = New [MinWidth 100; MaxWidth 200] ->
     find p2 = New [MaxWidth 200; MinWidth 100] ->
     postProcessIcons p1 icons out1 -> postProcessIcons p2 icons out2 ->
     out1 ≡ₚ out2 /\
     forall i, i ∈ out1 <->
               (exists h, tidy p1 icons !! h = Some i) /\ 100 <= Width i <= 200).
Proof.
  split.
  - intros order. split; [apply width_chain_min_max|apply width_chain_max_min].
  - intros E p1 p2 icons out1 out2 Hb Hf1 Hf2 H1 H2.
    apply postProcessIcons_perm in H1, H2.
    rewrite Hf1 in H1. rewrite Hf2, <- (tidy_baseURL p1 p2 icons Hb) in H2.
    change (filters (New [MinWidth 100; MaxWidth 200]))
      with [minWidthFilter 100; maxWidthFilter 200] in H1.
    change (filters (New [MaxWidth 200; MinWidth 100]))
      with [maxWidthFilter 200; minWidthFilter 100] in H2.
    rewrite width_chain_min_max in H1. rewrite width_chain_max_min in H2.
    split; [rewrite H1, H2; reflexivity|].
    intros i. rewrite H1, list_elem_of_filter, elem_of_values. tauto.
Qed.

Lemma width_bounds_in_either_order_witness :
  postProcessIcons_run (E := Sample.env) (Cases.bare [MinWidth 100; MaxWidth 200])
    Cases.sized ≡ₚ
  postProcessIcons_run (E := Sample.env) (Cases.bare [MaxWidth 200; MinWidth 100])
    Cases.sized.
Proof.
  apply (proj2 width_bounds_in_either_order Sample.env
           (Cases.bare [MinWidth 100; MaxWidth 200])
           (Cases.bare [MaxWidth 200; MinWidth 100]) Cases.sized);
    first [reflexivity | apply postProcessIcons_run_possible].
Defined.

Example width_bounds_sample :
  List.map Width
    (postProcessIcons_run (E := Sample.env) (Cases.bare [MaxWidth 200; MinWidth 100])
       Cases.sized) = [200; 150; 100].
Proof. vm_compute. reflexivity. Qed.

(** C10: the filter of [OnlyMimeType] without MIME types rejects every
    icon; [OnlyMimeType] appends it to the filters of the Finder; a
    filter chain that contains it returns no icon, and a parser whose
    Finder has such a chain returns the empty list on any candidates. *)
Theorem empty_allow_list_rejects_all :
  (forall i, mimeTypeIn [] i = None) /\
  (forall f, filters (OnlyMimeType [] f) = filters f ++ [mimeTypeIn []]) /\
  (forall fs1 fs2 i, applyFilters (fs1 ++ mimeTypeIn [] :: fs2) i = None) /\
  (forall (E : Externals) (p : parser) (fs1 fs2 : list Filter) (icons out : list Icon),
     filters (find p) = fs1 ++ mimeTypeIn [] :: fs2 ->
     postProcessIcons p icons out -> out = []).
Proof.
  assert (Hchain : forall fs1 fs2 i, applyFilters (fs1 ++ mimeTypeIn [] :: fs2) i = None).
  { intros fs1 fs2 i. rewrite applyFilters_app.
    destruct (applyFilters fs1 i); reflexivity. }
  repeat split; try reflexivity; [exact Hchain|].
  intros E p fs1 fs2 icons out Hfs Hout.
  apply postProcessIcons_perm in Hout. rewrite Hfs in Hout.
  apply Permutation_nil_r. rewrite Hout.
  generalize ((map_to_list (tidy p icons)).*2). intros order.
  induction order as [|i order IH]; [reflexivity|].
  simpl. rewrite Hchain. exact IH.
Qed.

Lemma empty_allow_list_rejects_all_witness :
  postProcessIcons_run (E := Sample.env) (Cases.bare [MinWidth 1; OnlyMimeType []])
    Cases.sized = [].
Proof.
  apply (proj2 (proj2 (proj2 empty_allow_list_rejects_all)) Sample.env
           (Cases.bare [MinWidth 1; OnlyMimeType []]) [minWidthFilter 1] []
           Cases.sized);
    [reflexivity | apply postProcessIcons_run_possible].
Defined.

(** ** The well-known icons *)

Section Probing.

Context {E : Externals}.

(** [fetchURL] succeeds when the URL makes a request, the client
    answers, and the status is at most 299. *)
Lemma fetchURL_Ok (f : Finder) (url : string) (w : World) :
  is_Ok (fst (fetchURL f url w)) = true <->
  exists u resp, urls_Parse url = Some u /\
                 answers (client f) (requests w) url = Some resp /\
                 StatusCode resp <= 299.
Proof.
  unfold fetchURL, bind, client_Do, log_Printf, ret.
  destruct (urls_Parse url) as [u|]; simpl.
  - destruct (answers (client f) (requests w) url) as [resp|]; simpl.
    + rewrite Z.gtb_ltb. destruct (Z.ltb_spec 299 (StatusCode resp)); simpl.
      * split; [discriminate|]. intros (? & ? & _ & [= <-] & ?). lia.
      * split; [|reflexivity]. intros _. exists u, resp. auto.
    + split; [discriminate|]. intros (? & ? & _ & ? & _). discriminate.
  - split; [discriminate|]. intros (? & ? & ? & _). discriminate.
Qed.

(** A fetch sends one request, unless the URL makes none. *)
Lemma fetchURL_requests (f : Finder) (url : string) (w : World) :
  requests (snd (fetchURL f url w)) =
  requests w ++ (if is_nil (urls_Parse url) then [] else [url]).
Proof.
  unfold fetchURL, bind, client_Do, log_Printf, ret.
  destruct (urls_Parse url) as [u|]; simpl; [|symmetry; apply app_nil_r].
  destruct (answers (client f) (requests w) url) as [resp|]; simpl; [|reflexivity].
  destruct (StatusCode resp >? 299); reflexivity.
Qed.

(** One turn of the loop of [findWellKnownIcons]. *)
Lemma probe_cons (f : Finder) (root name : string) (rest : list string)
  (icons : list Icon) (w : World) :
  probe f root (name :: rest) icons w =
  probe f root rest
    (icons ++ if is_Ok (fst (fetchURL f (root +:+ name) w))
              then [Icon_of_URL (root +:+ name)] else [])
    (snd (probe f root [name] icons w)).
Proof.
  simpl. unfold bind, ret.
  destruct (fetchURL f (root +:+ name) w) as [[body|msg] w1]; simpl.
  - reflexivity.
  - rewrite app_nil_r. reflexivity.
Qed.

Lemma probe_one_requests (f : Finder) (root name : string) (icons : list Icon)
  (w : World) :
  requests (snd (probe f root [name] icons w)) =
  requests (snd (fetchURL f (root +:+ name) w)).
Proof.
  simpl. unfold bind, ret.
  destruct (fetchURL f (root +:+ name) w) as [[body|msg] w1]; reflexivity.
Qed.

End Probing.

(** C9: without base URL [findWellKnownIcons] returns no icon and sends
    nothing; with a base URL it fetches [root ++ "favicon.ico"] and then
    [root ++ "apple-touch-icon.png"], where [root] is
    [scheme://host/], and nothing else; it returns, in that order, an
    icon for each of the two whose fetch succeeded, and no error; a
    fetch fails when the client reports an error or the status is 300
    or above (or the URL makes no request). *)
Theorem well_known_probes {E : Externals} (p : parser) (w : World) :
  (baseURL p = None -> findWellKnownIcons p w = ([], w)) /\
  (forall base, baseURL p = Some base ->
     let root := urls.Scheme base +:+ "://" +:+ urls.Host base +:+ "/" in
     let u1 := root +:+ "favicon.ico" in
     let u2 := root +:+ "apple-touch-icon.png" in
     let w1 := snd (probe (find p) root ["favicon.ico"%string] [] w) in
     fst (findWellKnownIcons p w) =
       (if is_Ok (fst (fetchURL (find p) u1 w)) then [Icon_of_URL u1] else []) ++
       (if is_Ok (fst (fetchURL (find p) u2 w1)) then [Icon_of_URL u2] else []) /\
     requests w1 = requests w ++ (if is_nil (urls_Parse u1) then [] else [u1]) /\
     requests (snd (findWellKnownIcons p w)) =
       requests w ++ (if is_nil (urls_Parse u1) then [] else [u1])
                  ++ (if is_nil (urls_Parse u2) then [] else [u2])) /\
  (forall f url w0,
     is_Ok (fst (fetchURL f url w0)) = true <->
     exists u resp, urls_Parse url = Some u /\
                    answers (client f) (requests w0) url = Some resp /\
                    StatusCode resp <= 299).
Proof.
  split; [|split].
  - unfold findWellKnownIcons. intros ->. reflexivity.
  - intros base Hb root u1 u2 w1.
    unfold findWellKnownIcons. rewrite Hb. fold root. unfold iconNames.
    rewrite (probe_cons (find p) root "favicon.ico"). fold u1 w1.
    rewrite (probe_cons (find p) root "apple-touch-icon.png"). fold u2.
    change (probe (find p) root [] ?icons ?w') with (icons, w').
    cbn [fst snd app].
    assert (Hw1 : requests w1 =
                  requests w ++ (if is_nil (urls_Parse u1) then [] else [u1])).
    { unfold w1. rewrite probe_one_requests. apply fetchURL_requests. }
    split; [reflexivity|]. split; [exact Hw1|].
    rewrite probe_one_requests, fetchURL_requests. fold u2.
    rewrite Hw1, <- app_assoc. reflexivity.
  - intros f url w0. apply fetchURL_Ok.
Qed.

Lemma well_known_probes_witness :
  fst (findWellKnownIcons (E := Sample.env)
         (Cases.based [WithClient Sample.oneIconClient; WithLogger Sample.recorder])
         Sample.world0) =
    [Icon_of_URL "https://a.com/favicon.ico"] /\
  requests (snd (findWellKnownIcons (E := Sample.env)
         (Cases.based [WithClient Sample.oneIconClient; WithLogger Sample.recorder])
         Sample.world0)) =
    ["https://a.com/favicon.ico"%string; "https://a.com/apple-touch-icon.png"%string].
Proof.
  destruct (proj1 (proj2 (well_known_probes (E := Sample.env)
              (Cases.based [WithClient Sample.oneIconClient; WithLogger Sample.recorder])
              Sample.world0)) Cases.base eq_refl) as (Hicons & _ & Hreq).
  split; [rewrite Hicons|rewrite Hreq]; reflexivity.
Defined.

Example well_known_without_base :
  findWellKnownIcons (E := Sample.env)
    (Cases.bare [WithClient Sample.oneIconClient]) Sample.world0 = ([], Sample.world0).
Proof. reflexivity. Qed.

Example well_known_log :
  logged (snd (findWellKnownIcons (E := Sample.env)
         (Cases.based [WithClient Sample.oneIconClient; WithLogger Sample.recorder])
         Sample.world0)) =
  [ "[200] https://a.com/favicon.ico"%string;
    "(well-known) https://a.com/favicon.ico"%string;
    "[404] https://a.com/apple-touch-icon.png"%string ].
Proof. vm_compute. reflexivity. Qed.

(** * Further properties of the filters, the comparator and the pipeline *)

(** ** Filter chains *)

Lemma applyFilters_accepts (fs : list Filter) (i : Icon) :
  Forall selective fs ->
  is_Some (applyFilters fs i) <-> Forall (accepts i) fs.
Proof.
  intros Hsel. induction Hsel as [|fn fs Hfn Hsel IH]; simpl.
  - split; [constructor|eauto].
  - unfold accepts at 1. rewrite Forall_cons. fold (accepts i fn). unfold accepts at 1.
    destruct (fn i) as [i'|] eqn:Hi.
    + apply Hfn in Hi as ->. rewrite IH. split; [split; eauto|tauto].
    + split; [intros []%is_Some_None|intros [[]%is_Some_None _]].
Qed.

Lemma filterIcons_accepts (fs : list Filter) (order : list Icon) :
  Forall selective fs ->
  filterIcons fs order = filter (fun i => Forall (accepts i) fs) order.
Proof.
  intros Hsel. rewrite (filterIcons_selective fs order Hsel).
  apply list_filter_iff. intros i. apply applyFilters_accepts, Hsel.
Qed.

(** X1: when the filters only accept or reject, the filter loop keeps,
    in the order met, exactly the icons every filter accepts, so that
    any rearrangement of the chain gives the same result. *)
Theorem filter_chain_order_irrelevant (fs fs' : list Filter) (order : list Icon) :
  Forall selective fs -> fs ≡ₚ fs' ->
  filterIcons fs order = filter (fun i => Forall (accepts i) fs) order /\
  filterIcons fs' order = filterIcons fs order.
Proof.
  intros Hsel Hperm.
  assert (Hsel' : Forall selective fs') by (rewrite <- Hperm; exact Hsel).
  split; [apply filterIcons_accepts, Hsel|].
  rewrite !filterIcons_accepts by assumption.
  apply list_filter_iff. intros i. rewrite Hperm. reflexivity.
Qed.

Lemma filter_chain_order_irrelevant_witness :
  filterIcons [noSizeFilter; squareFilter] [Cases.strip16; Cases.strip32] =
  filterIcons [squareFilter; noSizeFilter] [Cases.strip16; Cases.strip32].
Proof.
  apply (filter_chain_order_irrelevant [squareFilter; noSizeFilter]
           [noSizeFilter; squareFilter] [Cases.strip16; Cases.strip32]).
  - repeat constructor; apply (builtin_filters_selective 0 []).
  - apply perm_swap.
Defined.

Lemma accepts_bounds (n : Z) (i : Icon) :
  (accepts i (minWidthFilter n) <-> n <= Width i) /\
  (accepts i (maxWidthFilter n) <-> Width i <= n) /\
  (accepts i (minHeightFilter n) <-> n <= Height i) /\
  (accepts i (maxHeightFilter n) <-> Height i <= n).
Proof.
  unfold accepts, minWidthFilter, maxWidthFilter, minHeightFilter, maxHeightFilter.
  rewrite !Z.gtb_ltb.
  repeat split;
    try (intros Hacc; match type of Hacc with
                      | context [?a <? ?b] => destruct (Z.ltb_spec a b) as [Hlt|Hge]
                      end; [apply is_Some_None in Hacc; contradiction|lia]);
    intros Hle;
    match goal with
    | |- context [?a <? ?b] => destruct (Z.ltb_spec a b) as [Hlt|Hge]
    end; first [lia|eauto].
Qed.

Lemma bound_filters_accept (lw hw lh hh : Z) (i : Icon) :
  Forall (accepts i)
    [minWidthFilter lw; maxWidthFilter hw; minHeightFilter lh; maxHeightFilter hh] <->
  lw <= Width i <= hw /\ lh <= Height i <= hh.
Proof.
  rewrite !Forall_cons, Forall_nil.
  rewrite (proj1 (accepts_bounds lw i)).
  rewrite (proj1 (proj2 (accepts_bounds hw i))).
  rewrite (proj1 (proj2 (proj2 (accepts_bounds lh i)))).
  rewrite (proj2 (proj2 (proj2 (accepts_bounds hh i)))).
  tauto.
Qed.

(** X2: the four size bounds, added in any order, keep exactly the
    icons whose width and height both lie within their bounds, bounds
    included; nothing is kept when a lower bound exceeds its upper
    bound. *)
Theorem size_bounds_in_any_order (lw hw lh hh : Z) (fs : list Filter)
  (order : list Icon) :
  fs ≡ₚ [minWidthFilter lw; maxWidthFilter hw; minHeightFilter lh; maxHeightFilter hh] ->
  filterIcons fs order =
    filter (fun i => lw <= Width i <= hw /\ lh <= Height i <= hh) order /\
  (hw < lw \/ hh < lh -> filterIcons fs order = []).
Proof.
  intros Hperm.
  assert (Hsel : Forall selective fs).
  { rewrite Hperm. repeat constructor; apply (builtin_filters_selective _ []). }
  assert (Hkeep : filterIcons fs order =
                  filter (fun i => lw <= Width i <= hw /\ lh <= Height i <= hh) order).
  { rewrite (filterIcons_accepts fs order Hsel).
    apply list_filter_iff. intros i. rewrite Hperm. apply bound_filters_accept. }
  split; [exact Hkeep|].
  intros Hempty. rewrite Hkeep. clear Hkeep.
  induction order as [|i order IH]; [reflexivity|].
  rewrite filter_cons_False by lia. exact IH.
Qed.

Lemma size_bounds_in_any_order_witness :
  filterIcons [maxHeightFilter 200; minWidthFilter 100; minHeightFilter 100;
               maxWidthFilter 200] Cases.sized =
  filter (fun i => 100 <= Width i <= 200 /\ 100 <= Height i <= 200) Cases.sized.
Proof.
  apply (size_bounds_in_any_order 100 200 100 200).
  etransitivity; [apply Permutation_cons_append|]. simpl.
  apply perm_skip, perm_swap.
Defined.

Lemma mimeTypeIn_elem (mimeType : list string) (i : Icon) :
  mimeTypeIn mimeType i = if decide (MimeType i ∈ mimeType) then Some i else None.
Proof.
  induction mimeType as [|s rest IH]; cbn [mimeTypeIn].
  - destruct (decide (MimeType i ∈ [])) as [Hin|_]; [|reflexivity].
    apply elem_of_nil in Hin. contradiction.
  - destruct (decide (MimeType i ∈ s :: rest)) as [Hin|Hnin].
    + destruct (String.eqb_spec (MimeType i) s) as [Heq|Hne]; [reflexivity|].
      rewrite IH. apply elem_of_cons in Hin as [Heq|Hin]; [contradiction|].
      destruct (decide (MimeType i ∈ rest)); [reflexivity|contradiction].
    + apply not_elem_of_cons in Hnin as [Hne Hnin].
      destruct (String.eqb_spec (MimeType i) s) as [Heq|_]; [contradiction|].
      rewrite IH.
      destruct (decide (MimeType i ∈ rest)); [contradiction|reflexivity].
Qed.

(** X3: the filter of [OnlyMimeType] returns an icon unchanged when its
    MIME type is one of those listed and rejects it otherwise, so that
    the filter loop keeps exactly the icons with a listed MIME type and
    neither the order nor repetitions in the list matter; the filters of
    [OnlyICO] and [OnlyPNG] are those of [OnlyMimeType] for the two ICO
    types and for "image/png". *)
Theorem mime_allow_list :
  (forall mimeType i,
     mimeTypeIn mimeType i =
       if decide (MimeType i ∈ mimeType) then Some i else None) /\
  (forall mimeType order,
     filterIcons [mimeTypeIn mimeType] order =
       filter (fun i => MimeType i ∈ mimeType) order) /\
  (forall l1 l2 i, (forall s, s ∈ l1 <-> s ∈ l2) ->
     mimeTypeIn l1 i = mimeTypeIn l2 i) /\
  (forall i, icoFilter i =
     mimeTypeIn ["image/x-icon"%string; "image/vnd.microsoft.icon"%string] i) /\
  (forall f, filters (OnlyPNG f) = filters f ++ [mimeTypeIn ["image/png"%string]]).
Proof.
  split; [exact mimeTypeIn_elem|]. split; [|split; [|split]].
  - intros mimeType order. induction order as [|i order IH]; [reflexivity|].
    cbn [filterIcons applyFilters]. rewrite mimeTypeIn_elem.
    destruct (decide (MimeType i ∈ mimeType)) as [Hin|Hnin].
    + rewrite filter_cons_True by exact Hin. rewrite IH. reflexivity.
    + rewrite filter_cons_False by exact Hnin. exact IH.
  - intros l1 l2 i Hsame. rewrite !mimeTypeIn_elem.
    apply decide_ext, Hsame.
  - intros i. unfold icoFilter. simpl.
    destruct (String.eqb (MimeType i) "image/x-icon"),
      (String.eqb (MimeType i) "image/vnd.microsoft.icon"); reflexivity.
  - reflexivity.
Qed.

Lemma mime_allow_list_witness :
  mimeTypeIn ["image/png"%string; "image/jpeg"%string] Cases.png32 =
  mimeTypeIn ["image/jpeg"%string; "image/png"%string; "image/png"%string] Cases.png32.
Proof.
  apply (proj1 (proj2 (proj2 mime_allow_list))).
  intros s. rewrite !elem_of_cons, !elem_of_nil. tauto.
Defined.

(** ** Options *)

Lemma builtin_options_add_filters :
  (forall fs, addsFilters (WithFilter fs) fs) /\
  (forall l, addsFilters (WithLogger l) []) /\
  (forall c, addsFilters (WithClient c) []) /\
  addsFilters IgnoreWellKnown [] /\ addsFilters IgnoreManifest [] /\
  (forall ms, addsFilters (OnlyMimeType ms) [mimeTypeIn ms]) /\
  (forall n, addsFilters (MinWidth n) [minWidthFilter n]) /\
  (forall n, addsFilters (MaxWidth n) [maxWidthFilter n]) /\
  (forall n, addsFilters (MinHeight n) [minHeightFilter n]) /\
  (forall n, addsFilters (MaxHeight n) [maxHeightFilter n]) /\
  addsFilters IgnoreNoSize [noSizeFilter] /\
  addsFilters OnlyPNG [mimeTypeIn ["image/png"%string]] /\
  addsFilters OnlyICO [icoFilter] /\ addsFilters OnlySquare [squareFilter].
Proof.
  unfold addsFilters. repeat split; intros; simpl; rewrite ?app_nil_r; reflexivity.
Qed.

Lemma options_loop_filters (option : list Option) (fss : list (list Filter))
  (f : Finder) :
  Forall2 addsFilters option fss ->
  filters (List.fold_left (fun f fn => fn f) option f) = filters f ++ concat fss.
Proof.
  intros Hall. revert f.
  induction Hall as [|o fs option fss Ho _ IH]; intros f; simpl.
  - rewrite app_nil_r. reflexivity.
  - rewrite IH, Ho, app_assoc. reflexivity.
Qed.

(** X4: the filter chain of [New] is the concatenation, in the order of
    the options, of the filters each option adds: those given to
    [WithFilter], one filter for each built-in filtering option, none
    for [WithLogger], [WithClient], [IgnoreWellKnown] and
    [IgnoreManifest]; no option removes or reorders filters added
    before it. *)
Theorem New_collects_filters (option : list Option) (fss : list (list Filter)) :
  Forall2 addsFilters option fss ->
  filters (New option) = concat fss /\
  forall more fs, addsFilters more fs ->
    filters (New (option ++ [more])) = filters (New option) ++ fs.
Proof.
  intros Hall.
  assert (Hnew : filters (New option) = concat fss).
  { unfold New. rewrite (options_loop_filters option fss _ Hall). reflexivity. }
  split; [exact Hnew|].
  intros more fs Hmore. unfold New. rewrite fold_left_app. simpl. apply Hmore.
Qed.

Lemma New_collects_filters_witness :
  filters (New [OnlySquare; IgnoreWellKnown; WithFilter [noSizeFilter; icoFilter];
                MinWidth 16]) =
  concat [[squareFilter]; []; [noSizeFilter; icoFilter]; [minWidthFilter 16]].
Proof.
  apply (New_collects_filters
           [OnlySquare; IgnoreWellKnown; WithFilter [noSizeFilter; icoFilter];
            MinWidth 16]).
  repeat constructor; apply builtin_options_add_filters.
Defined.

(** ** The comparator as an order *)

Lemma Less_trans (a b c : Icon) :
  Less a b = true -> Less b c = true -> Less a c = true.
Proof.
  rewrite !Less_iff. intros [Hab|[Hw Hab]] [Hbc|[Hw' Hbc]]; try (left; lia).
  right. split; [lia|]. exact (String_as_OT.lt_trans _ _ _ Hab Hbc).
Qed.

(** X5: [Less] is a strict weak order, as [sort.Sort] requires of its
    argument: no icon is less than itself, [Less] is asymmetric and
    transitive, and so is incomparability; two icons are incomparable
    exactly when they have the same width and the same URL. *)
Theorem Less_strict_weak_order :
  (forall a, Less a a = false) /\
  (forall a b, Less a b = true -> Less b a = false) /\
  (forall a b c, Less a b = true -> Less b c = true -> Less a c = true) /\
  (forall a b c, Less a b = false -> Less b c = false -> Less a c = false) /\
  (forall a b, Less a b = false /\ Less b a = false <->
               Width a = Width b /\ URL a = URL b).
Proof.
  assert (Hirr : forall a, Less a a = false).
  { intros a. apply not_true_is_false. rewrite Less_iff.
    intros [Hw|[_ Hu]]; [lia|exact (lts_irrefl _ Hu)]. }
  split; [exact Hirr|]. split; [exact Less_asym|]. split; [exact Less_trans|].
  split.
  - intros a b c Hab Hbc. exact (notAfter_trans c b a Hbc Hab).
  - intros a b. split.
    + intros [Hab Hba]. apply (notAfter_antisym a b); assumption.
    + intros [Hw Hu].
      assert (Hab : Less a b = Less b b).
      { rewrite !Less_width_then_URL, Hw, Hu. reflexivity. }
      assert (Hba : Less b a = Less b b).
      { rewrite !Less_width_then_URL, Hw, Hu. reflexivity. }
      rewrite Hab, Hba, Hirr. split; reflexivity.
Qed.

Lemma Less_strict_weak_order_witness :
  Less Cases.png32 Cases.strip16 = true /\ Less Cases.strip16 Cases.png32 = false.
Proof.
  split; [reflexivity|].
  apply (proj1 (proj2 Less_strict_weak_order)). reflexivity.
Defined.

(** ** The result of the post-processing *)

Lemma StronglySorted_lookup_lt {A} (R : relation A) (l : list A) (i j : nat) (a b : A) :
  StronglySorted R l -> (i < j)%nat -> l !! i = Some a -> l !! j = Some b -> R a b.
Proof.
  intros Hs. revert i j. induction Hs as [|x l Hs IH Hall]; intros i j Hij Ha Hb.
  - rewrite lookup_nil in Ha. discriminate.
  - destruct j as [|j]; [lia|]. destruct i as [|i]; simpl in *.
    + injection Ha as <-. rewrite Forall_forall in Hall.
      apply Hall. apply list_elem_of_lookup. eauto.
    + apply (IH i j); [lia|assumption..].
Qed.

(** X6: every result lists the icons by width, largest first, and by
    URL, smallest first, among icons of one width: an icon is never
    wider than one listed before it, nor, at the same width, has a
    smaller URL; in particular the first icon is one of greatest
    width. *)
Theorem result_largest_first {E : Externals} (p : parser) (icons out : list Icon) :
  postProcessIcons p icons out ->
  (forall i j a b, (i < j)%nat -> out !! i = Some a -> out !! j = Some b ->
     Width b <= Width a /\
     (Width b = Width a -> String.ltb (URL b) (URL a) = false)) /\
  (forall first rest o, out = first :: rest -> o ∈ out -> Width o <= Width first).
Proof.
  intros (order & _ & ->).
  assert (Hs : StronglySorted notAfter (filterAndSort p order)).
  { apply Sorted_StronglySorted; [exact notAfter_trans|apply Sort_sorted]. }
  assert (Hpair : forall a b, notAfter a b ->
            Width b <= Width a /\
            (Width b = Width a -> String.ltb (URL b) (URL a) = false)).
  { intros a b Hab. unfold notAfter in Hab.
    rewrite Less_width_then_URL in Hab.
    apply orb_false_iff in Hab as [Hgt Hurl]. rewrite Z.gtb_ltb in Hgt.
    apply Z.ltb_ge in Hgt. split; [exact Hgt|].
    intros Hw. rewrite Hw, Z.eqb_refl in Hurl. exact Hurl. }
  split.
  - intros i j a b Hij Ha Hb. apply Hpair.
    exact (StronglySorted_lookup_lt notAfter _ i j a b Hs Hij Ha Hb).
  - intros first rest o Hout Ho. rewrite Hout in Hs, Ho.
    apply StronglySorted_inv in Hs as [_ Hall].
    apply elem_of_cons in Ho as [->|Ho]; [lia|].
    rewrite Forall_forall in Hall. apply Hpair, Hall, Ho.
Qed.

Lemma result_largest_first_witness :
  Width (Cases.hashed (Cases.icon "https://a.com/100.png" "image/png" 100 100)) <=
  Width (Cases.hashed (Cases.icon "https://a.com/201.png" "image/png" 201 201)).
Proof.
  apply (proj2 (result_largest_first (E := Sample.env) (Cases.bare []) Cases.sized
                  _ (postProcessIcons_run_possible _ _))
           (Cases.hashed (Cases.icon "https://a.com/201.png" "image/png" 201 201))
           (List.tl (postProcessIcons_run (E := Sample.env) (Cases.bare []) Cases.sized))).
  - vm_compute. reflexivity.
  - vm_compute. do 3 right. left.
Defined.

Lemma values_hashes {E : Externals} (p : parser) (icons : list Icon) :
  Hash <$> (map_to_list (tidy p icons)).*2 = (map_to_list (tidy p icons)).*1.
Proof.
  assert (Hkeys : forall k v, (k, v) ∈ map_to_list (tidy p icons) -> Hash v = k).
  { intros k v Hin. apply elem_of_map_to_list in Hin. apply (tidy_entry _ _ _ _ Hin). }
  induction (map_to_list (tidy p icons)) as [|[k v] l IH]; [reflexivity|].
  simpl. rewrite (Hkeys k v) by left. f_equal.
  apply IH. intros k' v' Hin. apply Hkeys. right. exact Hin.
Qed.

(** X7: when the filters only accept or reject, no two icons of a
    result have the same hash, and each icon of a result is an input
    candidate as the first loop normalised it: its hash is the digest of
    its own URL, width and height, 64 characters long. *)
Theorem result_hashes_distinct {E : Externals} (p : parser) (icons out : list Icon) :
  Forall selective (filters (find p)) -> postProcessIcons p icons out ->
  NoDup (Hash <$> out) /\
  forall o, o ∈ out ->
    Hash o = iconHash o /\ String.length (Hash o) = 64%nat /\
    exists icon, icon ∈ icons /\ normalize p icon = Some o.
Proof.
  intros Hsel Hout. apply postProcessIcons_perm in Hout.
  rewrite (filterIcons_selective _ _ Hsel) in Hout.
  split.
  - rewrite Hout.
    apply (sublist_NoDup _ (Hash <$> (map_to_list (tidy p icons)).*2)).
    + rewrite values_hashes. apply NoDup_fst_map_to_list.
    + apply fmap_sublist, sublist_filter.
  - intros o Ho. rewrite Hout in Ho.
    apply list_elem_of_filter in Ho as [_ Ho].
    apply elem_of_values in Ho as [h Hh].
    destruct (tidy_entry p icons h o Hh) as (_ & icon & Hin & Hn).
    destruct (normalize_Some p icon o Hn) as (_ & _ & Hhash & _).
    split; [exact Hhash|]. split; [|exists icon; split; assumption].
    rewrite Hhash. unfold iconHash. rewrite hex_length, Sum256_length. reflexivity.
Qed.

Lemma result_hashes_distinct_witness :
  NoDup (Hash <$> postProcessIcons_run (E := Sample.env)
                    (Cases.bare [OnlySquare])
                    [Cases.first16; Cases.strip32; Cases.second16]).
Proof.
  apply (result_hashes_distinct (E := Sample.env) (Cases.bare [OnlySquare])
           [Cases.first16; Cases.strip32; Cases.second16]).
  - repeat constructor. apply (builtin_filters_selective 0 []).
  - apply postProcessIcons_run_possible.
Defined.

Lemma tidy_loop_size {E : Externals} (p : parser) (icons : list Icon) (m : gmap string Icon) :
  (size (List.fold_left (tidy_step p) icons m) <= size m + List.length icons)%nat.
Proof.
  revert m. induction icons as [|icon icons IH]; intros m; simpl; [lia|].
  etransitivity; [apply IH|]. unfold tidy_step.
  destruct (normalize p icon) as [i|]; [|lia].
  rewrite map_size_insert. destruct (m !! Hash i); simpl; lia.
Qed.

Lemma filterIcons_length (fs : list Filter) (order : list Icon) :
  (List.length (filterIcons fs order) <= List.length order)%nat.
Proof.
  induction order as [|i order IH]; simpl; [lia|].
  destruct (applyFilters fs i); simpl; lia.
Qed.

(** X8: whatever the filters, a result never holds more icons than
    there were candidates; without candidates it is empty. *)
Theorem result_no_longer_than_input {E : Externals} (p : parser) (icons out : list Icon) :
  postProcessIcons p icons out ->
  (List.length out <= List.length icons)%nat /\ (icons = [] -> out = []).
Proof.
  intros Hout. apply postProcessIcons_perm in Hout.
  assert (Hlen : (List.length out <= List.length icons)%nat).
  { rewrite Hout. etransitivity; [apply filterIcons_length|].
    rewrite length_fmap, length_map_to_list. unfold tidy.
    etransitivity; [apply tidy_loop_size|]. rewrite map_size_empty. lia. }
  split; [exact Hlen|].
  intros ->. destruct out; [reflexivity|simpl in Hlen; lia].
Qed.

Lemma result_no_longer_than_input_witness :
  (List.length (postProcessIcons_run (E := Sample.env) (Cases.based []) Cases.raw)
   <= List.length Cases.raw)%nat.
Proof.
  apply (result_no_longer_than_input (E := Sample.env) (Cases.based []) Cases.raw).
  apply postProcessIcons_run_possible.
Defined.

Lemma lastWithHash_elem {E : Externals} (p : parser) (h : string) (icons : list Icon) (icon i : Icon) :
  icon ∈ icons -> normalize p icon = Some i -> Hash i = h ->
  is_Some (lastWithHash p h icons).
Proof.
  intros Hin Hn Hh. induction icons as [|c icons IH]; [inversion Hin|].
  apply elem_of_cons in Hin as [<-|Hin].
  - apply (lastWithHash_hd p h icon i icons Hn Hh).
  - simpl. destruct (IH Hin) as [c' ->]. eauto.
Qed.

(** X9: a Finder without filters loses no candidate that survives
    normalisation: every result holds an icon with the hash of each
    surviving candidate, and holds nothing but surviving candidates. *)
Theorem unfiltered_result_covers_survivors {E : Externals} (p : parser) (icons out : list Icon) :
  filters (find p) = [] -> postProcessIcons p icons out ->
  (forall icon i, icon ∈ icons -> normalize p icon = Some i ->
     exists o, o ∈ out /\ Hash o = Hash i) /\
  (forall o, o ∈ out -> exists icon, icon ∈ icons /\ normalize p icon = Some o).
Proof.
  intros Hfs Hout. apply postProcessIcons_perm in Hout. rewrite Hfs in Hout.
  assert (Hid : forall order, filterIcons [] order = order).
  { intros order. induction order as [|i order IH]; [reflexivity|].
    simpl. rewrite IH. reflexivity. }
  rewrite Hid in Hout. split.
  - intros icon i Hin Hn.
    destruct (lastWithHash_elem p (Hash i) icons icon i Hin Hn eq_refl) as [o Ho].
    rewrite <- tidy_lookup in Ho. exists o. split.
    + rewrite Hout. apply elem_of_values. exists (Hash i). exact Ho.
    + apply (tidy_entry p icons (Hash i) o Ho).
  - intros o Ho. rewrite Hout in Ho. apply elem_of_values in Ho as [h Hh].
    destruct (tidy_entry p icons h o Hh) as (_ & icon & Hin & Hn).
    exists icon. split; assumption.
Qed.

Lemma unfiltered_result_covers_survivors_witness :
  exists o, o ∈ postProcessIcons_run (E := Sample.env) (Cases.bare [])
                  [Cases.first16; Cases.second16] /\
            Hash o = Hash Cases.first16h.
Proof.
  apply (proj1 (unfiltered_result_covers_survivors (E := Sample.env) (Cases.bare [])
                  [Cases.first16; Cases.second16] _ eq_refl
                  (postProcessIcons_run_possible _ _)) Cases.first16 Cases.first16h).
  - left.
  - vm_compute. reflexivity.
Defined.

(** ** Normalisation of one candidate *)

Lemma resolve_fields {E : Externals} (p : parser) (icon : Icon) :
  URL (resolve p icon) = absURL p (URL icon) /\
  MimeType (resolve p icon) =
    (if String.eqb (MimeType icon) "" then mimeTypeURL (absURL p (URL icon))
     else MimeType icon) /\
  FileExt (resolve p icon) = FileExt icon /\
  Width (resolve p icon) = Width icon /\ Height (resolve p icon) = Height icon.
Proof.
  unfold resolve. simpl. destruct (String.eqb (MimeType icon) ""); repeat split.
Qed.

(** X10: normalisation only fills what is missing.  The URL becomes
    its resolved form; a declared MIME type and a declared extension are
    kept; a non-zero width is kept together with the height, even a zero
    height; a zero width makes both width and height come from the URL
    when it holds a size, whatever the declared height, and leaves them
    alone when it holds none. *)
Theorem normalize_fills_missing {E : Externals} (p : parser) (icon i : Icon) :
  normalize p icon = Some i ->
  URL i = absURL p (URL icon) /\
  (MimeType icon <> ""%string -> MimeType i = MimeType icon) /\
  (MimeType icon = ""%string -> MimeType i = mimeTypeURL (URL i)) /\
  (FileExt icon <> ""%string -> FileExt i = FileExt icon) /\
  (FileExt icon = ""%string -> FileExt i = fileExt (URL i)) /\
  (Width icon <> 0 -> Width i = Width icon /\ Height i = Height icon) /\
  (Width icon = 0 ->
     match extractSizeFromURL (URL i) with
     | Some (w, h) => Width i = w /\ Height i = h
     | None => Width i = 0 /\ Height i = Height icon
     end).
Proof.
  unfold normalize.
  destruct (resolve_fields p icon) as (Hu & Hm & He & Hw & Hh).
  set (r := resolve p icon) in *.
  destruct (String.eqb (URL r) "" || String.eqb (MimeType r) ""); [discriminate|].
  destruct (String.eqb_spec (FileExt r) "") as [Hext|Hext];
    cbn [Width URL with_FileExt];
    (destruct (Z.eqb_spec (Width r) 0) as [Hwid|Hwid];
     [destruct (extractSizeFromURL (URL r)) as [[w h]|] eqn:Hsz|]);
    intros [= <-]; cbn; rewrite ?Hsz.
  all: rewrite ?Hu, ?He, ?Hw, ?Hh in *.
  all: repeat split; intros; try congruence.
  all: try (rewrite Hm; destruct (String.eqb_spec (MimeType icon) ""); congruence).
Qed.

Lemma normalize_fills_missing_witness :
  Width Cases.a16h = 16 /\ Height Cases.a16h = 16.
Proof.
  pose proof (proj2 (proj2 (proj2 (proj2 (proj2 (proj2
    (normalize_fills_missing (E := Sample.env) (Cases.based [])
       (Icon_of_URL "/a-16x16.png") Cases.a16h eq_refl)))))) eq_refl) as Hsize.
  exact Hsize.
Defined.

(** The declared height is lost when the width is unknown. *)
Example height_overwritten_with_width :
  normalize (E := Sample.env) (Cases.bare [])
    {| URL := "https://a.com/a-16x16.png"; MimeType := "image/png"; FileExt := ".png";
       Width := 0; Height := 64; Hash := "" |} = Some Cases.a16h.
Proof. vm_compute. reflexivity. Qed.

(** X11: a normalised icon whose URL resolves to itself, as every URL
    does for a parser without base URL, is left as it is by a second
    normalisation. *)
Theorem normalize_again {E : Externals} (p : parser) (icon i : Icon) :
  normalize p icon = Some i -> absURL p (URL i) = URL i ->
  normalize p i = Some i.
Proof.
  intros Hn Habs.
  destruct (normalize_Some p icon i Hn) as (Hu & Hm & Hhash & _).
  destruct (normalize_fills_missing p icon i Hn) as (_ & _ & _ & He & He' & Hw & Hw').
  assert (Hres : resolve p i = i).
  { unfold resolve. cbn [URL MimeType with_URL]. rewrite Habs.
    apply String.eqb_neq in Hm. rewrite Hm. destruct i; reflexivity. }
  unfold normalize. rewrite Hres.
  apply String.eqb_neq in Hu, Hm. rewrite Hu, Hm. cbn [orb].
  assert (Hext : (if String.eqb (FileExt i) "" then with_FileExt i (fileExt (URL i))
                  else i) = i).
  { destruct (String.eqb_spec (FileExt i) "") as [Hempty|_]; [|reflexivity].
    destruct (String.eqb_spec (FileExt icon) "") as [Hicon|Hicon].
    - rewrite <- (He' Hicon). destruct i; reflexivity.
    - rewrite (He Hicon) in Hempty. contradiction. }
  rewrite Hext.
  assert (Hsize : (if Width i =? 0
                   then match extractSizeFromURL (URL i) with
                        | Some (w, h) => with_size i w h
                        | None => i
                        end
                   else i) = i).
  { destruct (Z.eqb_spec (Width i) 0) as [Hzero|_]; [|reflexivity].
    destruct (Z.eq_dec (Width icon) 0) as [Hicon|Hicon].
    - specialize (Hw' Hicon).
      destruct (extractSizeFromURL (URL i)) as [[w h]|]; [|reflexivity].
      destruct Hw' as [<- <-]. destruct i; reflexivity.
    - destruct (Hw Hicon) as [Hsame _]. congruence. }
  rewrite Hsize. f_equal. rewrite <- Hhash. destruct i; reflexivity.
Qed.

Lemma normalize_again_witness :
  normalize (E := Sample.env) (Cases.bare []) Cases.first16h = Some Cases.first16h.
Proof.
  apply (normalize_again (E := Sample.env) (Cases.bare []) Cases.first16);
    vm_compute; reflexivity.
Defined.

(** X12: what becomes of a candidate whose URL does not parse.  With a
    base URL it is dropped, whatever MIME type it declares; without MIME
    type it is dropped as well, base URL or not; without base URL and
    with a declared MIME type it is kept, its URL unchanged, though the
    URL does not parse. *)
Theorem unparsable_URL {E : Externals} (p : parser) (icon : Icon) :
  (forall base, baseURL p = Some base -> urls_Parse (URL icon) = None ->
     normalize p icon = None) /\
  (MimeType icon = ""%string -> urls_Parse (absURL p (URL icon)) = None ->
     normalize p icon = None) /\
  (baseURL p = None -> URL icon <> ""%string -> MimeType icon <> ""%string ->
     exists i, normalize p icon = Some i /\ URL i = URL icon /\
               MimeType i = MimeType icon).
Proof.
  destruct (resolve_fields p icon) as (Hu & Hm & _).
  split; [|split].
  - intros base Hb Hp. apply normalize_None. left. rewrite Hu.
    unfold absURL. rewrite Hb, Hp. simpl.
    destruct (String.eqb_spec (URL icon) ""); [assumption|reflexivity].
  - intros Hmime Hp. apply normalize_None. right. rewrite Hm, Hmime. simpl.
    unfold mimeTypeURL. rewrite Hp. reflexivity.
  - intros Hb Hurl Hmime.
    assert (Habs : absURL p (URL icon) = URL icon).
    { unfold absURL. rewrite Hb. simpl. rewrite orb_true_r. reflexivity. }
    destruct (normalize p icon) as [i|] eqn:Hn.
    + exists i. split; [reflexivity|].
      destruct (normalize_fills_missing p icon i Hn) as (Hi & Hkeep & _).
      split; [congruence|apply Hkeep, Hmime].
    + apply normalize_None in Hn. rewrite Hu, Hm, Habs in Hn.
      apply String.eqb_neq in Hmime. rewrite Hmime in Hn.
      apply String.eqb_neq in Hmime. destruct Hn; contradiction.
Qed.

Lemma unparsable_URL_witness :
  normalize (E := Sample.env) (Cases.based [])
    (Cases.icon ":bad" "image/png" 16 16) = None /\
  exists i, normalize (E := Sample.env) (Cases.bare [])
              (Cases.icon ":bad" "image/png" 16 16) = Some i /\
            URL i = ":bad"%string /\ MimeType i = "image/png"%string.
Proof.
  split.
  - apply (proj1 (unparsable_URL (E := Sample.env) (Cases.based [])
                    (Cases.icon ":bad" "image/png" 16 16)) Cases.base);
      reflexivity.
  - apply (proj2 (proj2 (unparsable_URL (E := Sample.env) (Cases.bare [])
                           (Cases.icon ":bad" "image/png" 16 16))));
      [reflexivity|discriminate|discriminate].
Defined.

(** ** The string behind the hash *)

Lemma append_cons (c : ascii) (s t : string) : String c s +:+ t = String c (s +:+ t).
Proof. reflexivity. Qed.

Lemma append_empty (t : string) : EmptyString +:+ t = t.
Proof. reflexivity. Qed.

Lemma append_assoc (s t u : string) : (s +:+ t) +:+ u = s +:+ (t +:+ u).
Proof.
  induction s as [|c s IH]; [reflexivity|].
  rewrite !append_cons, IH. reflexivity.
Qed.

(** A string is cut in one way only at the last occurrence of [c]. *)
Lemma cut_at_last (c : ascii) (p1 p2 s1 s2 : string) :
  occurs c s1 = false -> occurs c s2 = false ->
  p1 +:+ String c s1 = p2 +:+ String c s2 -> p1 = p2 /\ s1 = s2.
Proof.
  intros H1 H2. revert p2.
  assert (Hocc : forall q t, occurs c (q +:+ String c t) = true).
  { intros q t. induction q as [|a q IH].
    - rewrite append_empty. simpl. rewrite Ascii.eqb_refl. reflexivity.
    - rewrite append_cons. simpl. rewrite IH. apply orb_true_r. }
  induction p1 as [|a p1 IH]; intros [|b p2];
    rewrite ?append_cons, ?append_empty; intros Heq.
  - injection Heq as <-. split; reflexivity.
  - injection Heq as <- Heq. rewrite Heq, Hocc in H1. discriminate.
  - injection Heq as -> Heq. rewrite <- Heq, Hocc in H2. discriminate.
  - injection Heq as <- Heq. destruct (IH p2 Heq) as [<- <-]. split; reflexivity.
Qed.

Lemma uint_no_x (d : Decimal.uint) : occurs "x" (NilEmpty.string_of_uint d) = false.
Proof. induction d; simpl; auto. Qed.

Lemma uint_no_minus (d : Decimal.uint) : occurs "-" (NilEmpty.string_of_uint d) = false.
Proof. induction d; simpl; auto. Qed.

Lemma fmt_d_no_x (n : Z) : occurs "x" (fmt.d n) = false.
Proof.
  unfold fmt.d, NilZero.string_of_int, NilZero.string_of_uint.
  destruct (Z.to_int n) as [d|d]; destruct d; simpl; auto using uint_no_x.
Qed.

Lemma fmt_d_no_minus (n : Z) : 0 <= n -> occurs "-" (fmt.d n) = false.
Proof.
  intros Hn. unfold fmt.d. destruct n as [|q|q]; [reflexivity| |lia].
  unfold Z.to_int, NilZero.string_of_int, NilZero.string_of_uint.
  destruct (Pos.to_uint q); simpl; auto using uint_no_minus.
Qed.

Lemma fmt_d_inj (n m : Z) : fmt.d n = fmt.d m -> n = m.
Proof.
  unfold fmt.d. intros Heq. apply DecimalZ.to_int_inj.
  assert (Hparse : forall k, NilZero.int_of_string (NilZero.string_of_int (Z.to_int k))
                             = Some (Z.to_int k)).
  { intros k. apply NilZero.isi; destruct k; simpl; try discriminate;
      intros [= Hnil]; exact (DecimalPos.Unsigned.to_uint_nonnil _ Hnil). }
  pose proof (Hparse n) as Hn. rewrite Heq, Hparse in Hn. congruence.
Qed.

Lemma identityString_cut (i : Icon) :
  identityString i =
  (URL i +:+ String "-" (fmt.d (Width i))) +:+ String "x" (fmt.d (Height i)).
Proof. unfold identityString. rewrite append_assoc. reflexivity. Qed.

(** X13: [iconHash] digests the string "<url>-<width>x<height>", and
    for widths that are not negative this string determines the URL,
    the width and the height: two icons that differ in one of them are
    told apart before the digest is taken.  A negative width breaks
    this: the URL "a-" with width 3 and the URL "a" with width -3 give
    the same string. *)
Theorem identityString_injective :
  (forall i, iconHash i = fmt.x (sha256.Sum256 (bytes (identityString i)))) /\
  (forall a b, 0 <= Width a -> 0 <= Width b ->
     identityString a = identityString b ->
     URL a = URL b /\ Width a = Width b /\ Height a = Height b) /\
  identityString (Cases.icon "a-" "image/png" 3 1) =
    identityString (Cases.icon "a" "image/png" (-3) 1).
Proof.
  split; [reflexivity|]. split; [|reflexivity].
  intros a b Ha Hb. rewrite !identityString_cut. intros Heq.
  apply cut_at_last in Heq as [Heq Hh]; try apply fmt_d_no_x.
  apply cut_at_last in Heq as [Hu Hw]; try (apply fmt_d_no_minus; assumption).
  apply fmt_d_inj in Hh, Hw. auto.
Qed.

Lemma identityString_injective_witness :
  URL Cases.first16 = URL Cases.second16 /\
  Width Cases.first16 = Width Cases.second16 /\
  Height Cases.first16 = Height Cases.second16.
Proof.
  apply (proj1 (proj2 identityString_injective) Cases.first16 Cases.second16);
    [simpl; lia | simpl; lia | reflexivity].
Defined.

(** ** Post-processing a result again *)

Lemma filterIcons_nil (order : list Icon) : filterIcons [] order = order.
Proof.
  induction order as [|i order IH]; [reflexivity|]. simpl. rewrite IH. reflexivity.
Qed.

(** The first loop over icons that normalise to themselves and have
    distinct hashes, none of them a key of the map yet, adds each of
    them under its hash. *)
Lemma tidy_loop_fresh {E : Externals} (p : parser) (l : list Icon)
  (m : gmap string Icon) :
  (forall o, o ∈ l -> normalize p o = Some o) -> NoDup (Hash <$> l) ->
  (forall o, o ∈ l -> m !! Hash o = None) ->
  (map_to_list (List.fold_left (tidy_step p) l m)).*2 ≡ₚ l ++ (map_to_list m).*2.
Proof.
  revert m. induction l as [|o l IH]; intros m Hfix Hnd Hfresh; [reflexivity|].
  simpl in Hnd. apply NoDup_cons in Hnd as [Ho Hnd]. simpl.
  unfold tidy_step at 2. rewrite (Hfix o) by left.
  rewrite IH.
  - rewrite map_to_list_insert by (apply Hfresh; left).
    simpl. symmetry. apply Permutation_middle.
  - intros o' Hin. apply Hfix. right. exact Hin.
  - exact Hnd.
  - intros o' Hin. rewrite lookup_insert_ne; [apply Hfresh; right; exact Hin|].
    intros Heq. apply Ho. rewrite Heq. apply list_elem_of_fmap.
    exists o'. split; [reflexivity|exact Hin].
Qed.

(** X14: for a Finder without filters, post-processing a result again,
    when the URLs of its icons resolve to themselves (as they all do
    without base URL), returns the same icons, and the same sequence
    whenever any two different icons among them differ in width or in
    URL. *)
Theorem result_reprocessed {E : Externals} (p : parser) (icons out out' : list Icon) :
  filters (find p) = [] -> postProcessIcons p icons out ->
  (forall o, o ∈ out -> absURL p (URL o) = URL o) ->
  postProcessIcons p out out' ->
  out' ≡ₚ out /\
  ((forall a b, a ∈ out -> b ∈ out -> Width a = Width b -> URL a = URL b -> a = b) ->
   out' = out).
Proof.
  intros Hfs Hout Habs Hout'.
  assert (Hsorted : Sorted notAfter out).
  { destruct Hout as (o & _ & ->). apply Sort_sorted. }
  assert (Hsorted' : Sorted notAfter out').
  { destruct Hout' as (o & _ & ->). apply Sort_sorted. }
  apply postProcessIcons_perm in Hout, Hout'.
  rewrite Hfs, filterIcons_nil in Hout, Hout'.
  assert (Hfix : forall o, o ∈ out -> normalize p o = Some o).
  { intros o Ho. pose proof Ho as Hin. rewrite Hout in Hin.
    apply elem_of_values in Hin as [h Hh].
    destruct (tidy_entry p icons h o Hh) as (_ & icon & _ & Hn).
    apply (normalize_again p icon o Hn), Habs, Ho. }
  assert (Hnd : NoDup (Hash <$> out)).
  { rewrite Hout, values_hashes. apply NoDup_fst_map_to_list. }
  assert (Hperm : out' ≡ₚ out).
  { rewrite Hout'. unfold tidy.
    rewrite (tidy_loop_fresh p out ∅ Hfix Hnd) by (intros; apply lookup_empty).
    rewrite map_to_list_empty. simpl. rewrite app_nil_r. reflexivity. }
  split; [exact Hperm|].
  intros Hdistinct. symmetry.
  apply sorted_arrangement_unique; [assumption..|symmetry; exact Hperm].
Qed.

Lemma result_reprocessed_witness :
  postProcessIcons_run (E := Sample.env) (Cases.bare [])
    (postProcessIcons_run (E := Sample.env) (Cases.bare []) Cases.mixed) ≡ₚ
  postProcessIcons_run (E := Sample.env) (Cases.bare []) Cases.mixed.
Proof.
  apply (result_reprocessed (E := Sample.env) (Cases.bare []) Cases.mixed).
  - reflexivity.
  - apply postProcessIcons_run_possible.
  - intros o _. unfold absURL. simpl. rewrite orb_true_r. reflexivity.
  - apply postProcessIcons_run_possible.
Defined.
